(** * Cross-shard message pool and shard-management event decoding

    A shallow embedding of

    - [core/xshard] (package [xshard]): the cross-shard pool, its recovery
      ([InitShardInfo]), ingestion ([AddCrossShardInfo]), collection
      ([GetCrossShardTxs]) and eviction ([DelCrossShardTxs]);
    - [smartcontract/service/native/shardmgmt/states/events.go]
      (package [shardstates]): [DecodeShardEvent], [DecodeShardCommonReqs].

    Go maps are [gmap]s, the global pool and the ledger are passed as
    explicit state, the unbounded [for { ... }] loops take a fuel argument
    that bounds the number of iterations. *)

From Stdlib Require Import ZArith.
From stdpp Require Import base option list strings gmap fin_maps.

Local Open Scope Z_scope.

(** ** Data model *)

(** [common.Uint256]: a 256-bit hash value. *)
Abbreviation Uint256 := Z (only parsing).

(** The zero value of [common.Uint256]. *)
Definition UINT256_EMPTY : Uint256 := 0.

(** [common.ShardID] wraps a [uint64]; [ToUint64] and
    [NewShardIDUnchecked] are the two directions of that wrapping. *)
Abbreviation ShardID := Z (only parsing).

Definition ToUint64 (id : ShardID) : Z := id.
Definition NewShardIDUnchecked (id : Z) : ShardID := id.

(** [uint32] subtraction as Go computes it. *)
Definition sub_uint32 (a b : Z) : Z := (a - b) mod 2 ^ 32.

(** Outcome of a read of the durable store: [err == nil],
    [err == com.ErrNotFound], or any other error. *)
Inductive lookup (A : Type) : Type :=
| Found (a : A)
| ErrNotFound
| ErrStore.

Arguments Found {A} a.
Arguments ErrNotFound {A}.
Arguments ErrStore {A}.

(** The errors built with [fmt.Errorf] in the pool, one constructor per
    call site, carrying the values the message is formatted from. *)
Inductive PoolError : Type :=
| ErrGetAllShardIDs
| ErrInitGetCrossShardHash (shardId : ShardID)
| ErrInitGetCrossShardMsg (msgHash : Uint256)
| ErrSaveCrossShardMsg (shardId : ShardID) (msgHash : Uint256)
| ErrAddGetCrossShardHash (shardId : ShardID)
| ErrAddSaveCrossShardHash (shardId : ShardID)
| ErrGetShardMsgsInBlock (parentblkNum : Z) (shardId : ShardID)
| ErrNewCrossShardTxMsg (height : Z)
| ErrGetCrossShardMsg (msgHash : Uint256).

(** The operations of the ledger store the pool calls; used to name the
    operation a storage fault hits. *)
Inductive StoreOp : Type :=
| OpGetAllShardIDs
| OpSaveAllShardIDs
| OpGetCrossShardHash (shardID : ShardID)
| OpSaveCrossShardHash (shardID : ShardID)
| OpGetCrossShardMsgByHash (msgHash : Uint256)
| OpSaveCrossShardMsgByHash (msgHash : Uint256).

(** What a loop or a function with an unbounded loop comes to: it returns
    ([err] is the returned error, [None] for [nil]) in a state, or the fuel
    ran out before it did. *)
Inductive run (S : Type) : Type :=
| Returned (err : option PoolError) (s : S)
| OutOfFuel.

Arguments Returned {S} err s.
Arguments OutOfFuel {S}.

(** Declared in the packages [common], [core/chainmgr/message] and
    [common/config], which are not embedded, and taken as parameters: the two
    predicates of a shard id, the validating constructor
    [common.NewShardID] ([None] for its error), the transaction builder
    ([None] for its error) and the two gas settings of
    [config.DefConfig.Common]. *)
Class External (Payload Transaction Account : Type) : Type := {
  IsRootShard : ShardID → bool;
  ParentID : ShardID → ShardID;
  NewShardID : Z → option ShardID;
  NewCrossShardTxMsg : Account → Z → ShardID → Z → Z → Payload → option Transaction;
  GasPrice : Z;
  GasLimit : Z
}.

Section Pool.

(** The opaque batch carried by a message ([ShardMsg]), the transaction
    type produced by the transaction builder and the signing account. *)
Context {Payload Transaction Account : Type}.
Context {ext : External Payload Transaction Account}.

(** [types.CrossShardMsgInfo], the fields the pool reads. *)
Record CrossShardMsgInfo : Type := mkInfo {
  FromShardID : ShardID;
  MsgHeight : Z;
  PreCrossShardMsgHash : Uint256;
  CrossShardMsgRoot : Uint256
}.

(** [types.CrossShardMsg]. *)
Record CrossShardMsg : Type := mkMsg {
  CrossShardMsgInfo_ : CrossShardMsgInfo;
  ShardMsg : Payload
}.

Definition Pre (msg : CrossShardMsg) : Uint256 :=
  PreCrossShardMsgHash (CrossShardMsgInfo_ msg).
Definition Root (msg : CrossShardMsg) : Uint256 :=
  CrossShardMsgRoot (CrossShardMsgInfo_ msg).
Definition From (msg : CrossShardMsg) : ShardID :=
  FromShardID (CrossShardMsgInfo_ msg).

(** [types.CrossShardTxInfos]. *)
Record CrossShardTxInfos : Type := mkTxInfos {
  TxShardMsg : CrossShardMsgInfo;
  Tx : Transaction
}.

(** [CrossShardPool] without its lock: every operation below runs with the
    lock held from entry to return. *)
Record CrossShardPool : Type := mkPool {
  PoolShardID : ShardID;
  Shards : gmap Z (gmap Uint256 CrossShardMsg);
  MaxBlockCap : Z;
  ShardInfo : gmap ShardID bool
}.

Definition InitCrossShardPool (shardID : ShardID) (historyCap : Z) : CrossShardPool :=
  {| PoolShardID := shardID; Shards := ∅; MaxBlockCap := historyCap; ShardInfo := ∅ |}.

Definition set_Shards (pool : CrossShardPool)
    (s : gmap Z (gmap Uint256 CrossShardMsg)) : CrossShardPool :=
  {| PoolShardID := PoolShardID pool; Shards := s;
     MaxBlockCap := MaxBlockCap pool; ShardInfo := ShardInfo pool |}.

Definition set_ShardInfo (pool : CrossShardPool) (i : gmap ShardID bool) : CrossShardPool :=
  {| PoolShardID := PoolShardID pool; Shards := Shards pool;
     MaxBlockCap := MaxBlockCap pool; ShardInfo := i |}.

(** The entries the pool holds for a source shard; a shard without a map
    has none. *)
Definition shardMsgsOf (pool : CrossShardPool) (shardID : Z) : gmap Uint256 CrossShardMsg :=
  default ∅ (Shards pool !! shardID).

(** ** The ledger store *)

(** Modelled from the spec: the ledger ([core/ledger], whose code is not
    embedded), as section 6 gives its interface: the set of known
    shard ids, one "last consumed hash" per shard, the messages keyed by
    hash, each read answering a value or not-found, each write answering ok
    or an error; the parent ledger, possibly absent, answers
    [GetShardMsgsInBlock]. [faulty] tells the operations that fail with a
    storage error other than not-found. A read that fails hands back the
    zero value of its result type next to the error. *)
Record Ledger : Type := mkLedger {
  allShardIDs : option (list ShardID);
  crossShardHash : gmap ShardID Uint256;
  crossShardMsgs : gmap Uint256 CrossShardMsg;
  ParentLedger : option (Z → ShardID → lookup Payload);
  faulty : StoreOp → bool
}.

Definition GetAllShardIDs (lgr : Ledger) : lookup (list ShardID) :=
  if faulty lgr OpGetAllShardIDs then ErrStore
  else match allShardIDs lgr with
       | Some ids => Found ids
       | None => ErrNotFound
       end.

Definition SaveAllShardIDs (lgr : Ledger) (ids : list ShardID) : option unit * Ledger :=
  if faulty lgr OpSaveAllShardIDs then (Some (), lgr)
  else (None, {| allShardIDs := Some ids; crossShardHash := crossShardHash lgr;
                 crossShardMsgs := crossShardMsgs lgr;
                 ParentLedger := ParentLedger lgr; faulty := faulty lgr |}).

Definition GetCrossShardHash (lgr : Ledger) (shardID : ShardID) : lookup Uint256 :=
  if faulty lgr (OpGetCrossShardHash shardID) then ErrStore
  else match crossShardHash lgr !! shardID with
       | Some h => Found h
       | None => ErrNotFound
       end.

Definition LedgerSaveCrossShardHash (lgr : Ledger) (shardID : ShardID) (msgHash : Uint256)
    : option unit * Ledger :=
  if faulty lgr (OpSaveCrossShardHash shardID) then (Some (), lgr)
  else (None, {| allShardIDs := allShardIDs lgr;
                 crossShardHash := <[shardID := msgHash]> (crossShardHash lgr);
                 crossShardMsgs := crossShardMsgs lgr;
                 ParentLedger := ParentLedger lgr; faulty := faulty lgr |}).

Definition GetCrossShardMsgByHash (lgr : Ledger) (msgHash : Uint256) : lookup CrossShardMsg :=
  if faulty lgr (OpGetCrossShardMsgByHash msgHash) then ErrStore
  else match crossShardMsgs lgr !! msgHash with
       | Some msg => Found msg
       | None => ErrNotFound
       end.

Definition SaveCrossShardMsgByHash (lgr : Ledger) (msgHash : Uint256) (msg : CrossShardMsg)
    : option unit * Ledger :=
  if faulty lgr (OpSaveCrossShardMsgByHash msgHash) then (Some (), lgr)
  else (None, {| allShardIDs := allShardIDs lgr;
                 crossShardHash := crossShardHash lgr;
                 crossShardMsgs := <[msgHash := msg]> (crossShardMsgs lgr);
                 ParentLedger := ParentLedger lgr; faulty := faulty lgr |}).

(** ** Pool operations *)

Definition GetCrossShardHashByShardID (lgr : Ledger) (shardID : ShardID) : lookup Uint256 :=
  GetCrossShardHash lgr shardID.

Definition SaveCrossShardHash (lgr : Ledger) (shardID : ShardID) (msgHash : Uint256)
    : option unit * Ledger :=
  LedgerSaveCrossShardHash lgr shardID msgHash.

(** [pool.Shards[id]], created with [make] when absent. Only maps created
    by [make] are ever stored in [pool.Shards], so the [m == nil] checks of
    the source never fire. *)
Definition ensureShard (pool : CrossShardPool) (id : Z) : CrossShardPool :=
  match Shards pool !! id with
  | Some _ => pool
  | None => set_Shards pool (<[id := ∅]> (Shards pool))
  end.

(** [m[key] = msg] on the map [m := pool.Shards[id]], which the pool
    shares. *)
Definition putMsg (pool : CrossShardPool) (id : Z) (key : Uint256) (msg : CrossShardMsg)
    : CrossShardPool :=
  set_Shards pool (<[id := <[key := msg]> (shardMsgsOf pool id)]> (Shards pool)).

(** One iteration of the inner [for { ... }] of [InitShardInfo], on the
    loop state (current hash, pool). *)
Inductive walkStep : Type :=
| Continue (msgHash : Uint256) (pool : CrossShardPool)
| Break (pool : CrossShardPool)
| Return (err : PoolError) (pool : CrossShardPool).

Definition recoverStep (lgr : Ledger) (shardId : ShardID) (msgHash : Uint256)
    (pool : CrossShardPool) : walkStep :=
  match GetCrossShardMsgByHash lgr msgHash with
  | ErrStore => Return (ErrInitGetCrossShardMsg msgHash) pool
  | ErrNotFound => Break pool
  | Found msg =>
      let pool1 := ensureShard pool (ToUint64 shardId) in
      match shardMsgsOf pool1 (ToUint64 shardId) !! Pre msg with
      | Some _ => Continue msgHash pool1
      | None => Continue (Root msg) (putMsg pool1 (ToUint64 shardId) (Pre msg) msg)
      end
  end.

Fixpoint recoverWalk (fuel : nat) (lgr : Ledger) (shardId : ShardID) (msgHash : Uint256)
    (pool : CrossShardPool) : run CrossShardPool :=
  match fuel with
  | O => OutOfFuel
  | S fuel' =>
      match recoverStep lgr shardId msgHash pool with
      | Continue msgHash' pool' => recoverWalk fuel' lgr shardId msgHash' pool'
      | Break pool' => Returned None pool'
      | Return err pool' => Returned (Some err) pool'
      end
  end.

(** The [for _, shardId := range shardIds] loop of [InitShardInfo]. The
    [break] taken when a shard has no persisted hash leaves this loop. *)
Fixpoint initShards (fuel : nat) (lgr : Ledger) (shardIds : list ShardID)
    (pool : CrossShardPool) : run CrossShardPool :=
  match shardIds with
  | [] => Returned None pool
  | shardId :: rest =>
      let pool1 := set_ShardInfo pool (<[shardId := true]> (ShardInfo pool)) in
      match GetCrossShardHashByShardID lgr shardId with
      | ErrStore => Returned (Some (ErrInitGetCrossShardHash shardId)) pool1
      | ErrNotFound => Returned None pool1
      | Found msgHash =>
          match recoverWalk fuel lgr shardId msgHash pool1 with
          | Returned None pool2 => initShards fuel lgr rest pool2
          | r => r
          end
      end
  end.

Definition InitShardInfo (fuel : nat) (lgr : Ledger) (pool : CrossShardPool)
    : run CrossShardPool :=
  match GetAllShardIDs lgr with
  | ErrStore => Returned (Some ErrGetAllShardIDs) pool
  | ErrNotFound => initShards fuel lgr [] pool
  | Found shardIds => initShards fuel lgr shardIds pool
  end.

(** [AddShardInfo]; the slice handed to [SaveAllShardIDs] lists the keys
    of [pool.ShardInfo] in the order the range loop yields them. *)
Definition AddShardInfo (lgr : Ledger) (pool : CrossShardPool) (shardID : ShardID)
    : CrossShardPool * Ledger :=
  match ShardInfo pool !! shardID with
  | Some _ => (pool, lgr)
  | None =>
      let pool1 := set_ShardInfo pool (<[shardID := true]> (ShardInfo pool)) in
      let shardIds := (map_to_list (ShardInfo pool1)).*1 in
      (pool1, (SaveAllShardIDs lgr shardIds).2)
  end.

Definition AddCrossShardInfo (lgr : Ledger) (pool : CrossShardPool)
    (crossShardMsg : CrossShardMsg) : option PoolError * (CrossShardPool * Ledger) :=
  let fromShardID := ToUint64 (From crossShardMsg) in
  let pool1 := ensureShard pool fromShardID in
  match shardMsgsOf pool1 fromShardID !! Pre crossShardMsg with
  | Some _ => (None, (pool1, lgr))
  | None =>
      let pool2 := putMsg pool1 fromShardID (Pre crossShardMsg) crossShardMsg in
      match SaveCrossShardMsgByHash lgr (Pre crossShardMsg) crossShardMsg with
      | (Some _, lgr1) =>
          (Some (ErrSaveCrossShardMsg (From crossShardMsg) (Pre crossShardMsg)), (pool2, lgr1))
      | (None, lgr1) =>
          match GetCrossShardHashByShardID lgr1 (From crossShardMsg) with
          | ErrStore => (Some (ErrAddGetCrossShardHash (From crossShardMsg)), (pool2, lgr1))
          | ErrNotFound =>
              match SaveCrossShardHash lgr1 (From crossShardMsg) (Pre crossShardMsg) with
              | (Some _, lgr2) =>
                  (Some (ErrAddSaveCrossShardHash (From crossShardMsg)), (pool2, lgr2))
              | (None, lgr2) => (None, AddShardInfo lgr2 pool2 (From crossShardMsg))
              end
          | Found _ => (None, AddShardInfo lgr1 pool2 (From crossShardMsg))
          end
      end
  end.

(** The inner [for { ... }] of [GetCrossShardTxs]: the in-memory map of
    the shard first, the durable store second. *)
Fixpoint collectWalk (fuel : nat) (lgr : Ledger) (shardMsgs : gmap Uint256 CrossShardMsg)
    (msgHash : Uint256) (crossShardMsgs : list CrossShardMsg) : run (list CrossShardMsg) :=
  match fuel with
  | O => OutOfFuel
  | S fuel' =>
      match shardMsgs !! msgHash with
      | None =>
          match GetCrossShardMsgByHash lgr msgHash with
          | ErrStore => Returned (Some (ErrGetCrossShardMsg msgHash)) crossShardMsgs
          | ErrNotFound => Returned None crossShardMsgs
          | Found msg =>
              collectWalk fuel' lgr shardMsgs (Root msg) (crossShardMsgs ++ [msg])
          end
      | Some shardMsg =>
          collectWalk fuel' lgr shardMsgs (Root shardMsg) (crossShardMsgs ++ [shardMsg])
      end
  end.

(** The [for _, msg := range crossShardMsgs] loop: a builder failure
    leaves the loop with the transactions built so far. *)
Fixpoint buildTxInfos (account : Account) (fromShardID : ShardID)
    (crossShardMsgs : list CrossShardMsg) (crossShardInfo : list CrossShardTxInfos)
    : list CrossShardTxInfos :=
  match crossShardMsgs with
  | [] => crossShardInfo
  | msg :: rest =>
      match NewCrossShardTxMsg account (MsgHeight (CrossShardMsgInfo_ msg)) fromShardID
              GasPrice GasLimit (ShardMsg msg) with
      | None => crossShardInfo
      | Some tx =>
          buildTxInfos account fromShardID rest
            (crossShardInfo ++ [ {| TxShardMsg := CrossShardMsgInfo_ msg; Tx := tx |} ])
      end
  end.

(** The [for shardID, shardMsgs := range pool.Shards] loop over the
    entries in the order [shards]. The result is the returned pair: the
    map ([None] for [nil]) and the error. *)
Fixpoint collectShards (fuel : nat) (lgr : Ledger) (account : Account)
    (fromShardID : ShardID) (shards : list (Z * gmap Uint256 CrossShardMsg))
    (crossShardMapInfos : gmap Z (list CrossShardTxInfos))
    : run (option (gmap Z (list CrossShardTxInfos))) :=
  match shards with
  | [] => Returned None (Some crossShardMapInfos)
  | (shardID, shardMsgs) :: rest =>
      match NewShardID shardID with
      | None => collectShards fuel lgr account fromShardID rest crossShardMapInfos
      | Some id =>
          match GetCrossShardHashByShardID lgr id with
          | ErrStore => collectShards fuel lgr account fromShardID rest crossShardMapInfos
          | found =>
              let msgHash := match found with Found h => h | _ => UINT256_EMPTY end in
              match collectWalk fuel lgr shardMsgs msgHash [] with
              | OutOfFuel => OutOfFuel
              | Returned (Some err) _ => Returned (Some err) None
              | Returned None crossShardMsgs =>
                  collectShards fuel lgr account fromShardID rest
                    (<[shardID := buildTxInfos account fromShardID crossShardMsgs []]>
                       crossShardMapInfos)
              end
          end
      end
  end.

Definition GetCrossShardTxs (fuel : nat) (lgr : Ledger) (pool : CrossShardPool)
    (account : Account) (fromShardID : ShardID) (parentblkNum : Z)
    : run (option (gmap Z (list CrossShardTxInfos))) :=
  if negb (IsRootShard fromShardID) then
    match ParentLedger lgr with
    | None => Returned None None
    | Some parent =>
        match parent (sub_uint32 parentblkNum 1) fromShardID with
        | ErrStore => Returned (Some (ErrGetShardMsgsInBlock parentblkNum fromShardID)) None
        | ErrNotFound => Returned None None
        | Found shardMsg =>
            match NewCrossShardTxMsg account parentblkNum fromShardID
                    GasPrice GasLimit shardMsg with
            | None => Returned (Some (ErrNewCrossShardTxMsg parentblkNum)) None
            | Some tx =>
                let shardTxInfo :=
                  {| TxShardMsg := {| FromShardID := ParentID fromShardID;
                                      MsgHeight := parentblkNum;
                                      PreCrossShardMsgHash := UINT256_EMPTY;
                                      CrossShardMsgRoot := UINT256_EMPTY |};
                     Tx := tx |} in
                collectShards fuel lgr account fromShardID (map_to_list (Shards pool))
                  (<[ToUint64 (ParentID fromShardID) := [shardTxInfo]]> ∅)
            end
        end
    end
  else collectShards fuel lgr account fromShardID (map_to_list (Shards pool)) ∅.

(** The inner loop of [DelCrossShardTxs] over the transactions of one
    shard; the flag tells that [return nil] was taken. *)
Fixpoint delShardTxs (lgr : Ledger) (pool : CrossShardPool) (shardID : Z)
    (shardTxs : list CrossShardTxInfos) : bool * (CrossShardPool * Ledger) :=
  match shardTxs with
  | [] => (false, (pool, lgr))
  | shardTx :: rest =>
      match Shards pool !! shardID with
      | None => (true, (pool, lgr))
      | Some crossShardTxInfos =>
          let pool' :=
            set_Shards pool
              (<[shardID := delete (CrossShardMsgRoot (TxShardMsg shardTx)) crossShardTxInfos]>
                 (Shards pool)) in
          let lgr' :=
            (SaveCrossShardHash lgr (NewShardIDUnchecked shardID)
               (PreCrossShardMsgHash (TxShardMsg shardTx))).2 in
          delShardTxs lgr' pool' shardID rest
      end
  end.

(** [DelCrossShardTxs] on the entries of [crossShardTxs] in the order the
    range loop visits them. Every path returns [nil]. *)
Fixpoint DelCrossShardTxs (lgr : Ledger) (pool : CrossShardPool)
    (crossShardTxs : list (Z * list CrossShardTxInfos))
    : option PoolError * (CrossShardPool * Ledger) :=
  match crossShardTxs with
  | [] => (None, (pool, lgr))
  | (shardID, shardTxs) :: rest =>
      match delShardTxs lgr pool shardID shardTxs with
      | (true, st) => (None, st)
      | (false, (pool', lgr')) => DelCrossShardTxs lgr' pool' rest
      end
  end.

(** ** Notions the properties are stated with *)

(** A run of [AddCrossShardInfo] calls, one per message, in order; the
    errors the calls return are dropped. *)
Fixpoint AddCrossShardInfos (lgr : Ledger) (pool : CrossShardPool)
    (msgs : list CrossShardMsg) : CrossShardPool * Ledger :=
  match msgs with
  | [] => (pool, lgr)
  | msg :: rest =>
      let st := (AddCrossShardInfo lgr pool msg).2 in
      AddCrossShardInfos st.2 st.1 rest
  end.

(** The messages the durable store links from [msgHash] on, each one
    stored at the [CrossShardMsgRoot] of the one before, up to the first
    hash the store has no message for. *)
Inductive rootChain (lgr : Ledger) : Uint256 → list CrossShardMsg → Prop :=
| rootChain_end msgHash :
    GetCrossShardMsgByHash lgr msgHash = ErrNotFound →
    rootChain lgr msgHash []
| rootChain_next msgHash msg rest :
    GetCrossShardMsgByHash lgr msgHash = Found msg →
    rootChain lgr (Root msg) rest →
    rootChain lgr msgHash (msg :: rest).

(** The messages [GetCrossShardTxs] meets from [msgHash] on for a shard
    whose in-memory map is [shardMsgs]: at each hash the map is asked
    first and the durable store second, and the next hash is the
    [CrossShardMsgRoot] of the message found. *)
Inductive pendingChain (lgr : Ledger) (shardMsgs : gmap Uint256 CrossShardMsg)
    : Uint256 → list CrossShardMsg → Prop :=
| pendingChain_end msgHash :
    shardMsgs !! msgHash = None →
    GetCrossShardMsgByHash lgr msgHash = ErrNotFound →
    pendingChain lgr shardMsgs msgHash []
| pendingChain_pool msgHash shardMsg rest :
    shardMsgs !! msgHash = Some shardMsg →
    pendingChain lgr shardMsgs (Root shardMsg) rest →
    pendingChain lgr shardMsgs msgHash (shardMsg :: rest)
| pendingChain_store msgHash msg rest :
    shardMsgs !! msgHash = None →
    GetCrossShardMsgByHash lgr msgHash = Found msg →
    pendingChain lgr shardMsgs (Root msg) rest →
    pendingChain lgr shardMsgs msgHash (msg :: rest).

(** The recovery walk as the specification words it: after the insert the
    current hash becomes the message's [PreCrossShardMsgHash], and a key
    already in the shard's map ends the walk. Used only to compare with
    [recoverWalk]. *)
Fixpoint specRecoverWalk (fuel : nat) (lgr : Ledger) (shardId : ShardID)
    (msgHash : Uint256) (pool : CrossShardPool) : run CrossShardPool :=
  match fuel with
  | O => OutOfFuel
  | S fuel' =>
      match GetCrossShardMsgByHash lgr msgHash with
      | ErrStore => Returned (Some (ErrInitGetCrossShardMsg msgHash)) pool
      | ErrNotFound => Returned None pool
      | Found msg =>
          let pool1 := ensureShard pool (ToUint64 shardId) in
          match shardMsgsOf pool1 (ToUint64 shardId) !! Pre msg with
          | Some _ => Returned None pool1
          | None =>
              specRecoverWalk fuel' lgr shardId (Pre msg)
                (putMsg pool1 (ToUint64 shardId) (Pre msg) msg)
          end
      end
  end.

End Pool.

(** ** Shard-management events ([shardstates]) *)

(** [[]byte]. *)
Definition bytes := list Byte.byte.

(** Declared in other files of [shardstates] and in [encoding/json], not
    embedded, and taken as parameters: the three gas event tags, the event and request
    types with their [Deserialize] methods ([inl] carries the text of the
    error), and [json.Unmarshal] into [_CrossShardTx], answering the [Txs]
    field. *)
Class Codec : Type := {
  DepositGasEvent : Type;
  WithdrawGasReqEvent : Type;
  CommonShardReq : Type;
  EVENT_SHARD_GAS_DEPOSIT : Z;
  EVENT_SHARD_GAS_WITHDRAW_REQ : Z;
  EVENT_SHARD_GAS_WITHDRAW_DONE : Z;
  DeserializeDepositGasEvent : bytes → string + DepositGasEvent;
  DeserializeWithdrawGasReqEvent : bytes → string + WithdrawGasReqEvent;
  DeserializeCommonShardReq : bytes → string + CommonShardReq;
  UnmarshalCrossShardTx : bytes → string + list bytes
}.

(** The errors [DecodeShardEvent] and [DecodeShardCommonReqs] build with
    [fmt.Errorf], carrying the values formatted into the message. *)
Inductive DecodeError : Type :=
| ErrUnmarshalGasDeposit (err : string)
| ErrUnmarshalGasWithdrawReq (err : string)
| ErrUnknownRemoteEventType (evtType : Z)
| ErrUnmarshalTxs (err : string)
| ErrUnmarshalReqTx (err : string) (tx : bytes).

Section Events.

Context {codec : Codec}.

(** The values of the interface [ShardMgmtEvent] that [DecodeShardEvent]
    can return. *)
Inductive ShardMgmtEvent : Type :=
| EvDepositGas (evt : DepositGasEvent)
| EvWithdrawGasReq (evt : WithdrawGasReqEvent).

(** The returned pair: the event ([None] for [nil]) and the error. *)
Definition DecodeShardEvent (evtType : Z) (evtPayload : bytes)
    : option ShardMgmtEvent * option DecodeError :=
  if evtType =? EVENT_SHARD_GAS_DEPOSIT then
    match DeserializeDepositGasEvent evtPayload with
    | inl err => (None, Some (ErrUnmarshalGasDeposit err))
    | inr evt => (Some (EvDepositGas evt), None)
    end
  else if evtType =? EVENT_SHARD_GAS_WITHDRAW_REQ then
    match DeserializeWithdrawGasReqEvent evtPayload with
    | inl err => (None, Some (ErrUnmarshalGasWithdrawReq err))
    | inr evt => (Some (EvWithdrawGasReq evt), None)
    end
  else if evtType =? EVENT_SHARD_GAS_WITHDRAW_DONE then (None, None)
  else (None, Some (ErrUnknownRemoteEventType evtType)).

(** The [for _, tx := range txs.Txs] loop of [DecodeShardCommonReqs]. *)
Fixpoint decodeReqs (txs : list bytes) (reqs : list CommonShardReq)
    : DecodeError + list CommonShardReq :=
  match txs with
  | [] => inr reqs
  | tx :: rest =>
      match DeserializeCommonShardReq tx with
      | inl err => inl (ErrUnmarshalReqTx err tx)
      | inr req => decodeReqs rest (reqs ++ [req])
      end
  end.

Definition DecodeShardCommonReqs (payload : bytes) : DecodeError + list CommonShardReq :=
  match UnmarshalCrossShardTx payload with
  | inl err => inl (ErrUnmarshalTxs err)
  | inr txs => decodeReqs txs []
  end.

End Events.

(** ** Concrete states for the examples *)

Module Scenario.

Definition payload : Type := list Z.
Definition transaction : Type := Z * ShardID * payload.

(** Shard 0 is the root, every other shard hangs below it, every id is
    valid and the builder always succeeds. *)
Definition ext : External payload transaction unit :=
  {| IsRootShard := λ id, id =? 0;
     ParentID := λ _, 0;
     NewShardID := λ id, Some id;
     NewCrossShardTxMsg := λ _ height shardID _ _ p, Some (height, shardID, p);
     GasPrice := 0;
     GasLimit := 20000 |}.

Definition shardA : ShardID := 5.
Definition shardB : ShardID := 6.
Definition H1 : Uint256 := 101.
Definition H2 : Uint256 := 102.
Definition H3 : Uint256 := 103.

Definition msg1 : CrossShardMsg (Payload := payload) :=
  {| CrossShardMsgInfo_ := {| FromShardID := shardA; MsgHeight := 10;
                              PreCrossShardMsgHash := H1; CrossShardMsgRoot := H2 |};
     ShardMsg := [1] |}.

Definition msg2 : CrossShardMsg (Payload := payload) :=
  {| CrossShardMsgInfo_ := {| FromShardID := shardA; MsgHeight := 11;
                              PreCrossShardMsgHash := H2; CrossShardMsgRoot := H3 |};
     ShardMsg := [2] |}.

(** A message whose [CrossShardMsgRoot] is its own key. *)
Definition msgLoop : CrossShardMsg (Payload := payload) :=
  {| CrossShardMsgInfo_ := {| FromShardID := shardA; MsgHeight := 10;
                              PreCrossShardMsgHash := H1; CrossShardMsgRoot := H1 |};
     ShardMsg := [1] |}.

Definition noFault : StoreOp → bool := λ _, false.

Definition emptyLedger : Ledger (Payload := payload) :=
  {| allShardIDs := None; crossShardHash := ∅; crossShardMsgs := ∅;
     ParentLedger := None; faulty := noFault |}.

(** A store that refuses to persist messages. *)
Definition readOnlyLedger : Ledger (Payload := payload) :=
  {| allShardIDs := None; crossShardHash := ∅; crossShardMsgs := ∅;
     ParentLedger := None;
     faulty := λ op, match op with OpSaveCrossShardMsgByHash _ => true | _ => false end |}.

Definition pool0 : CrossShardPool (Payload := payload) := InitCrossShardPool 0 100.

(** Pool and ledger after ingesting [msg1], then [msg2]. *)
Definition ingested1 : CrossShardPool * Ledger :=
  AddCrossShardInfos emptyLedger pool0 [msg1].
Definition ingested2 : CrossShardPool * Ledger :=
  AddCrossShardInfos emptyLedger pool0 [msg1; msg2].

(** Ledger after ingesting [msgLoop]. *)
Definition loopLedger : Ledger (Payload := payload) :=
  (AddCrossShardInfos emptyLedger pool0 [msgLoop]).2.

(** Two known shards; only the second has a persisted hash, and a message
    stored under it. *)
Definition twoShardLedger : Ledger (Payload := payload) :=
  {| allShardIDs := Some [shardB; shardA];
     crossShardHash := {[shardA := H1]};
     crossShardMsgs := {[H1 := msg1]};
     ParentLedger := None; faulty := noFault |}.

(** The same store with the two shard ids listed the other way round. *)
Definition twoShardLedger' : Ledger (Payload := payload) :=
  {| allShardIDs := Some [shardA; shardB];
     crossShardHash := {[shardA := H1]};
     crossShardMsgs := {[H1 := msg1]};
     ParentLedger := None; faulty := noFault |}.

(** What [InitShardInfo] rebuilds from the ledger of [ingested2], and what
    a walk along [PreCrossShardMsgHash] would rebuild. *)
Definition recoveredPool : CrossShardPool (Payload := payload) :=
  {| PoolShardID := 0; Shards := {[shardA := <[H2 := msg2]> {[H1 := msg1]}]};
     MaxBlockCap := 100; ShardInfo := {[shardA := true]} |}.
Definition specRecoveredPool : CrossShardPool (Payload := payload) :=
  {| PoolShardID := 0; Shards := {[shardA := {[H1 := msg1]}]};
     MaxBlockCap := 100; ShardInfo := ∅ |}.

(** The batch [GetCrossShardTxs] builds for [consumer] from [msg1] and
    [msg2]. *)
Definition batch (consumer : ShardID) : list (CrossShardTxInfos (Transaction := transaction)) :=
  [ {| TxShardMsg := CrossShardMsgInfo_ msg1; Tx := (10, consumer, [1]) |};
    {| TxShardMsg := CrossShardMsgInfo_ msg2; Tx := (11, consumer, [2]) |} ].

(** A codec whose container holds one-byte elements; an element parses
    unless it is the zero byte. Tags as [iota + 256]. *)
Definition codec : Codec :=
  {| DepositGasEvent := bytes;
     WithdrawGasReqEvent := bytes;
     CommonShardReq := Byte.byte;
     EVENT_SHARD_GAS_DEPOSIT := 256;
     EVENT_SHARD_GAS_WITHDRAW_REQ := 257;
     EVENT_SHARD_GAS_WITHDRAW_DONE := 258;
     DeserializeDepositGasEvent := λ b, inr b;
     DeserializeWithdrawGasReqEvent := λ b, inr b;
     DeserializeCommonShardReq := λ tx,
       match tx with
       | [Byte.x00] => inl "invalid request"%string
       | [b] => inr b
       | _ => inl "unexpected EOF"%string
       end;
     UnmarshalCrossShardTx := λ p, inr ((λ b, [b]) <$> p) |}.

End Scenario.

(** ** Notions for the properties of the operations taken together *)

Section PoolNotions.

Context {Payload : Type}.

(** [GetShardInfo]: the pool's own map, under the read lock. *)
Definition GetShardInfo (pool : CrossShardPool (Payload := Payload)) : gmap ShardID bool :=
  ShardInfo pool.

(** A store none of whose operations fails with a storage error. *)
Definition noFault (lgr : Ledger (Payload := Payload)) : Prop :=
  ∀ op, faulty lgr op = false.

(** A store that holds nothing yet and never fails. *)
Definition freshLedger (parent : option (Z → ShardID → lookup Payload))
    : Ledger (Payload := Payload) :=
  {| allShardIDs := None; crossShardHash := ∅; crossShardMsgs := ∅;
     ParentLedger := parent; faulty := λ _, false |}.

(** Every entry of every per-shard map sits under the
    [PreCrossShardMsgHash] of its message. *)
Definition keyedByPre (pool : CrossShardPool (Payload := Payload)) : Prop :=
  ∀ id key msg, shardMsgsOf pool id !! key = Some msg → Pre msg = key.

(** Messages of one source shard that follow one another: the first has
    [msgHash] as its [PreCrossShardMsgHash], each next one the
    [CrossShardMsgRoot] of the one before. *)
Fixpoint linkedFrom (shardID : ShardID) (msgHash : Uint256)
    (msgs : list (CrossShardMsg (Payload := Payload))) : Prop :=
  match msgs with
  | [] => True
  | msg :: rest =>
      From msg = shardID ∧ Pre msg = msgHash ∧ linkedFrom shardID (Root msg) rest
  end.

(** The messages of a list, each under its [PreCrossShardMsgHash]. *)
Definition entriesOf (msgs : list (CrossShardMsg (Payload := Payload)))
    : gmap Uint256 CrossShardMsg :=
  list_to_map ((λ msg, (Pre msg, msg)) <$> msgs).

End PoolNotions.

(** ** Further concrete states *)

Module Cases.

(** A message of [Scenario.shardB]. *)
Definition msgB : CrossShardMsg (Payload := Scenario.payload) :=
  {| CrossShardMsgInfo_ := {| FromShardID := Scenario.shardB; MsgHeight := 10;
                              PreCrossShardMsgHash := 201; CrossShardMsgRoot := 202 |};
     ShardMsg := [7] |}.

(** A pool that holds [msgB] and nothing else. *)
Definition poolB : CrossShardPool (Payload := Scenario.payload) :=
  (AddCrossShardInfos Scenario.emptyLedger Scenario.pool0 [msgB]).1.

(** What [InitShardInfo] makes of [poolB] on the ledger of
    [Scenario.ingested2]. *)
Definition poolB_recovered : CrossShardPool (Payload := Scenario.payload) :=
  {| PoolShardID := 0;
     Shards := <[Scenario.shardB := {[201 := msgB]}]>
                 {[Scenario.shardA := <[Scenario.H2 := Scenario.msg2]>
                                        {[Scenario.H1 := Scenario.msg1]}]};
     MaxBlockCap := 100;
     ShardInfo := <[Scenario.shardB := true]> {[Scenario.shardA := true]} |}.

(** The pool and ledger left by ingesting [Scenario.msgLoop]. *)
Definition looped : CrossShardPool * Ledger :=
  AddCrossShardInfos Scenario.emptyLedger Scenario.pool0 [Scenario.msgLoop].

(** The ledger of [Scenario.ingested2] with every read of a message
    failing. *)
Definition unreadable : Ledger (Payload := Scenario.payload) :=
  {| allShardIDs := allShardIDs Scenario.ingested2.2;
     crossShardHash := crossShardHash Scenario.ingested2.2;
     crossShardMsgs := crossShardMsgs Scenario.ingested2.2;
     ParentLedger := None;
     faulty := λ op, match op with OpGetCrossShardMsgByHash _ => true | _ => false end |}.

(** An empty store whose parent ledger has one record, at height 6. *)
Definition withParent : Ledger (Payload := Scenario.payload) :=
  {| allShardIDs := None; crossShardHash := ∅; crossShardMsgs := ∅;
     ParentLedger := Some (λ height _, if height =? 6 then Found [9] else ErrNotFound);
     faulty := Scenario.noFault |}.

(** The transaction [GetCrossShardTxs] files for the parent on
    [withParent], for the consumer [Scenario.shardB] at block 7. *)
Definition parentTx : CrossShardTxInfos (Transaction := Scenario.transaction) :=
  {| TxShardMsg := {| FromShardID := 0; MsgHeight := 7;
                      PreCrossShardMsgHash := UINT256_EMPTY;
                      CrossShardMsgRoot := UINT256_EMPTY |};
     Tx := (7, Scenario.shardB, [9]) |}.

End Cases.

(** ** The pool's maps *)

Section PoolTheory.

Context {Payload Transaction Account : Type}.
Context {ext : External Payload Transaction Account}.

Implicit Types (pool : CrossShardPool (Payload := Payload)).
Implicit Types (lgr : Ledger (Payload := Payload)).
Implicit Types (msg : CrossShardMsg (Payload := Payload)).
Implicit Types (msgs : list (CrossShardMsg (Payload := Payload))).

Lemma shardMsgsOf_ensureShard pool id shardID :
  shardMsgsOf (ensureShard pool id) shardID = shardMsgsOf pool shardID.
Proof.
  unfold ensureShard, shardMsgsOf.
  destruct (Shards pool !! id) eqn:Hid; [done|]. simpl.
  destruct (decide (id = shardID)) as [->|Hne].
  - by rewrite lookup_insert_eq, Hid.
  - by rewrite lookup_insert_ne.
Qed.

Lemma ensureShard_present pool id :
  is_Some (Shards pool !! id) → ensureShard pool id = pool.
Proof. intros [m Hm]. unfold ensureShard. by rewrite Hm. Qed.

Lemma shardMsgsOf_is_Some pool id key :
  is_Some (shardMsgsOf pool id !! key) → is_Some (Shards pool !! id).
Proof.
  unfold shardMsgsOf. destruct (Shards pool !! id); [eauto|].
  simpl. rewrite lookup_empty. by intros [? ?].
Qed.

Lemma shardMsgsOf_putMsg pool id key msg shardID :
  shardMsgsOf (putMsg pool id key msg) shardID =
    if decide (shardID = id) then <[key := msg]> (shardMsgsOf pool id)
    else shardMsgsOf pool shardID.
Proof.
  unfold putMsg. unfold shardMsgsOf at 1. simpl.
  case_decide as Hd.
  - subst. by rewrite lookup_insert_eq.
  - by rewrite lookup_insert_ne.
Qed.

Lemma ShardInfo_ensureShard pool id : ShardInfo (ensureShard pool id) = ShardInfo pool.
Proof. unfold ensureShard. by destruct (Shards pool !! id). Qed.

Lemma ShardInfo_putMsg pool id key msg : ShardInfo (putMsg pool id key msg) = ShardInfo pool.
Proof. done. Qed.

Lemma Shards_AddShardInfo lgr pool shardID :
  Shards (AddShardInfo lgr pool shardID).1 = Shards pool.
Proof. unfold AddShardInfo. by destruct (ShardInfo pool !! shardID). Qed.

Lemma shardMsgsOf_AddShardInfo lgr pool shardID id :
  shardMsgsOf (AddShardInfo lgr pool shardID).1 id = shardMsgsOf pool id.
Proof. unfold shardMsgsOf. by rewrite Shards_AddShardInfo. Qed.

(** ** Recovery: the walk of [InitShardInfo] *)

Lemma recoverStep_not_found lgr shardId msgHash pool :
  GetCrossShardMsgByHash lgr msgHash = ErrNotFound →
  recoverStep lgr shardId msgHash pool = Break pool.
Proof. intros Hget. unfold recoverStep. by rewrite Hget. Qed.

Lemma recoverStep_fresh lgr shardId msgHash pool msg :
  GetCrossShardMsgByHash lgr msgHash = Found msg →
  shardMsgsOf pool shardId !! Pre msg = None →
  recoverStep lgr shardId msgHash pool =
    Continue (Root msg) (putMsg (ensureShard pool shardId) shardId (Pre msg) msg).
Proof.
  intros Hget Hfresh. unfold recoverStep, ToUint64. rewrite Hget.
  by rewrite shardMsgsOf_ensureShard, Hfresh.
Qed.

(** The [continue] taken on a key that is already there keeps the loop
    state as it is. *)
Lemma recoverStep_present lgr shardId msgHash pool msg :
  GetCrossShardMsgByHash lgr msgHash = Found msg →
  is_Some (shardMsgsOf pool shardId !! Pre msg) →
  recoverStep lgr shardId msgHash pool = Continue msgHash pool.
Proof.
  intros Hget Hin. unfold recoverStep, ToUint64. rewrite Hget.
  rewrite shardMsgsOf_ensureShard.
  destruct Hin as [old Hold]. rewrite Hold.
  rewrite ensureShard_present; [done|].
  eapply shardMsgsOf_is_Some. by rewrite Hold.
Qed.

Lemma recoverWalk_present_diverges lgr shardId msgHash pool msg :
  GetCrossShardMsgByHash lgr msgHash = Found msg →
  is_Some (shardMsgsOf pool shardId !! Pre msg) →
  ∀ fuel, recoverWalk fuel lgr shardId msgHash pool = OutOfFuel.
Proof.
  intros Hget Hin fuel. induction fuel as [|fuel IH]; [done|].
  simpl. by rewrite (recoverStep_present _ _ _ _ _ Hget Hin).
Qed.

Lemma recoverWalk_fuel_mono lgr shardId fuel :
  ∀ fuel' msgHash pool err pool',
    (fuel ≤ fuel')%nat →
    recoverWalk fuel lgr shardId msgHash pool = Returned err pool' →
    recoverWalk fuel' lgr shardId msgHash pool = Returned err pool'.
Proof.
  induction fuel as [|fuel IH]; intros fuel' msgHash pool err pool' Hle Hrun.
  - discriminate.
  - destruct fuel' as [|fuel']; [lia|]. simpl in *.
    destruct (recoverStep lgr shardId msgHash pool); [|done..].
    apply IH; [lia|done].
Qed.

Lemma recoverWalk_rootChain lgr shardId msgs :
  ∀ msgHash pool,
    rootChain lgr msgHash msgs →
    NoDup (Pre <$> msgs) →
    (∀ msg, msg ∈ msgs → shardMsgsOf pool shardId !! Pre msg = None) →
    ∃ pool',
      recoverWalk (S (length msgs)) lgr shardId msgHash pool = Returned None pool'
      ∧ (∀ key msg, shardMsgsOf pool' shardId !! key = Some msg ↔
           (msg ∈ msgs ∧ Pre msg = key) ∨ shardMsgsOf pool shardId !! key = Some msg)
      ∧ (∀ id, id ≠ shardId → shardMsgsOf pool' id = shardMsgsOf pool id)
      ∧ ShardInfo pool' = ShardInfo pool.
Proof.
  induction msgs as [|msg rest IH]; intros msgHash pool Hchain Hnodup Hfresh.
  - inversion Hchain as [h Hget|]; subst.
    exists pool. simpl. rewrite (recoverStep_not_found _ _ _ _ Hget).
    repeat split; try done.
    + intros Hkey. by right.
    + intros [[Hin _]|Hkey]; [|done]. by apply elem_of_nil in Hin.
  - inversion Hchain as [|h m r Hget Hrest]; subst.
    apply NoDup_cons in Hnodup as [Hnotin Hnodup].
    assert (Hmsg : shardMsgsOf pool shardId !! Pre msg = None).
    { apply Hfresh. by left. }
    set (pool1 := putMsg (ensureShard pool shardId) shardId (Pre msg) msg).
    destruct (IH (Root msg) pool1 Hrest Hnodup) as (pool' & Hrun & Hentries & Hothers & Hinfo).
    { intros msg' Hin'. unfold pool1. rewrite shardMsgsOf_putMsg.
      rewrite decide_True by done. rewrite shardMsgsOf_ensureShard.
      rewrite lookup_insert_ne.
      - apply Hfresh. by right.
      - intros Heq. apply Hnotin. rewrite Heq. by apply list_elem_of_fmap_2. }
    exists pool'. split; [|split; [|split]].
    + change (recoverWalk (S (length (msg :: rest))) lgr shardId msgHash pool)
        with (match recoverStep lgr shardId msgHash pool with
              | Continue msgHash' pool2 => recoverWalk (S (length rest)) lgr shardId msgHash' pool2
              | Break pool2 => Returned None pool2
              | Return err pool2 => Returned (Some err) pool2
              end).
      by rewrite (recoverStep_fresh _ _ _ _ _ Hget Hmsg).
    + intros key msg'. rewrite Hentries. unfold pool1.
      rewrite shardMsgsOf_putMsg, decide_True by done.
      rewrite shardMsgsOf_ensureShard. rewrite lookup_insert.
      case_decide as Hkey.
      * subst key. split.
        -- intros [[Hin' Hpre]|Heq].
           ++ exfalso. apply Hnotin. rewrite <- Hpre. by apply list_elem_of_fmap_2.
           ++ injection Heq as <-. left. split; [by left|done].
        -- intros [[Hin' Hpre]|Hold].
           ++ apply elem_of_cons in Hin' as [->|Hin'].
              ** by right.
              ** left. done.
           ++ congruence.
      * split.
        -- intros [[Hin' Hpre]|Hold]; [left|by right]. split; [by right|done].
        -- intros [[Hin' Hpre]|Hold]; [|by right].
           apply elem_of_cons in Hin' as [->|Hin']; [done|]. by left.
    + intros id Hid. rewrite (Hothers id Hid). unfold pool1.
      rewrite shardMsgsOf_putMsg, decide_False by done.
      apply shardMsgsOf_ensureShard.
    + rewrite Hinfo. unfold pool1. rewrite ShardInfo_putMsg. apply ShardInfo_ensureShard.
Qed.

Lemma initShards_fuel_mono lgr fuel fuel' shardIds :
  (fuel ≤ fuel')%nat →
  ∀ pool err pool',
    initShards fuel lgr shardIds pool = Returned err pool' →
    initShards fuel' lgr shardIds pool = Returned err pool'.
Proof.
  intros Hle. induction shardIds as [|shardId rest IH]; intros pool err pool' Hrun; [done|].
  simpl in *. destruct (GetCrossShardHashByShardID lgr shardId) as [msgHash| |]; [|done..].
  destruct (recoverWalk fuel lgr shardId msgHash _) as [werr pool2|] eqn:Hwalk; [|done].
  rewrite (recoverWalk_fuel_mono _ _ _ fuel' _ _ _ _ Hle Hwalk).
  destruct werr; [done|]. by apply IH.
Qed.

(** More fuel never changes what [InitShardInfo] returns: running out of
    fuel for every amount is the model's way of saying that the call does
    not return. *)
Lemma InitShardInfo_fuel_mono lgr fuel fuel' pool err pool' :
  (fuel ≤ fuel')%nat →
  InitShardInfo fuel lgr pool = Returned err pool' →
  InitShardInfo fuel' lgr pool = Returned err pool'.
Proof.
  intros Hle. unfold InitShardInfo.
  destruct (GetAllShardIDs lgr); [|done..]. by apply initShards_fuel_mono.
Qed.

(** C1 (as amended). The recovery walk of [InitShardInfo] goes forward
    along [CrossShardMsgRoot]: a message fetched at the current hash whose
    [PreCrossShardMsgHash] key is free is stored under that key and the
    current hash becomes its [CrossShardMsgRoot]; a not-found lookup ends
    the walk. When the keys of the messages linked from the persisted hash
    are distinct and free in the shard's map, the walk returns, and the
    entries of the shard are then exactly the former ones and the linked
    messages, under their [PreCrossShardMsgHash]; the other shards keep
    theirs, and the loop over the shard ids goes on with the next id. *)
Theorem InitShardInfo_walk_follows_MessageRoot
    fuel lgr shardId rest msgHash pool msgs :
  GetCrossShardHashByShardID lgr shardId = Found msgHash →
  rootChain lgr msgHash msgs →
  NoDup (Pre <$> msgs) →
  (∀ msg, msg ∈ msgs → shardMsgsOf pool shardId !! Pre msg = None) →
  (length msgs < fuel)%nat →
  (∀ msg rest', msgs = msg :: rest' →
     recoverStep lgr shardId msgHash pool =
       Continue (Root msg) (putMsg (ensureShard pool shardId) shardId (Pre msg) msg))
  ∧ (msgs = [] → recoverStep lgr shardId msgHash pool = Break pool)
  ∧ ∃ pool',
      initShards fuel lgr (shardId :: rest) pool = initShards fuel lgr rest pool'
      ∧ (∀ key msg, shardMsgsOf pool' shardId !! key = Some msg ↔
           (msg ∈ msgs ∧ Pre msg = key) ∨ shardMsgsOf pool shardId !! key = Some msg)
      ∧ (∀ id, id ≠ shardId → shardMsgsOf pool' id = shardMsgsOf pool id)
      ∧ ShardInfo pool' = <[shardId := true]> (ShardInfo pool).
Proof.
  intros Hhash Hchain Hnodup Hfresh Hfuel. split; [|split].
  - intros msg rest' ->. inversion Hchain as [|h m r Hget Hrest]; subst.
    apply recoverStep_fresh; [done|]. apply Hfresh. by left.
  - intros ->. inversion Hchain as [h Hget|]; subst.
    by apply recoverStep_not_found.
  - set (pool1 := set_ShardInfo pool (<[shardId := true]> (ShardInfo pool))).
    destruct (recoverWalk_rootChain lgr shardId msgs msgHash pool1 Hchain Hnodup)
      as (pool' & Hrun & Hentries & Hothers & Hinfo); [exact Hfresh|].
    exists pool'. split; [|split; [|split]]; try done.
    simpl. rewrite Hhash. fold pool1.
    by rewrite (recoverWalk_fuel_mono _ _ _ fuel _ _ _ _ Hfuel Hrun).
Qed.

End PoolTheory.

(** C2. Where the fetched message's key is already in the shard's map the
    walk of [InitShardInfo] does not stop: the [continue] re-enters the loop
    with the same hash and the same pool, so no amount of fuel lets
    [InitShardInfo] return. Shown on the pool and ledger left by ingesting
    one message, and on a fresh pool with a stored message whose
    [CrossShardMsgRoot] is its own key. *)
Theorem InitShardInfo_present_key_never_returns :
  (∀ fuel, InitShardInfo fuel Scenario.ingested1.2 Scenario.ingested1.1 = OutOfFuel)
  ∧ (∀ fuel, InitShardInfo fuel Scenario.loopLedger Scenario.pool0 = OutOfFuel).
Proof.
  split; intros fuel.
  - unfold InitShardInfo.
    replace (GetAllShardIDs Scenario.ingested1.2) with
      (Found (A := list ShardID) [Scenario.shardA]) by reflexivity.
    unfold initShards.
    replace (GetCrossShardHashByShardID Scenario.ingested1.2 Scenario.shardA)
      with (Found Scenario.H1) by reflexivity.
    rewrite (recoverWalk_present_diverges _ _ _ _ Scenario.msg1); [done|done|].
    by exists Scenario.msg1.
  - unfold InitShardInfo.
    replace (GetAllShardIDs Scenario.loopLedger) with
      (Found (A := list ShardID) [Scenario.shardA]) by reflexivity.
    unfold initShards.
    replace (GetCrossShardHashByShardID Scenario.loopLedger Scenario.shardA)
      with (Found Scenario.H1) by reflexivity.
    destruct fuel as [|fuel]; [done|].
    unfold recoverWalk; fold (recoverWalk (Payload := Scenario.payload)).
    rewrite (recoverStep_fresh _ _ _ _ Scenario.msgLoop); [|done|done].
    rewrite (recoverWalk_present_diverges _ _ _ _ Scenario.msgLoop); [done|done|].
    by exists Scenario.msgLoop.
Qed.

(** C6. A shard without a persisted hash ends the whole loop over the
    shard ids, not only its own turn: with the ids [shardB; shardA] and no
    hash for [shardB], [InitShardInfo] returns with [shardB] alone marked
    and nothing recovered for [shardA]; with the ids the other way round
    both are marked and [shardA]'s message is recovered. *)
Theorem InitShardInfo_missing_hash_ends_the_loop :
  (∀ fuel,
     InitShardInfo fuel Scenario.twoShardLedger Scenario.pool0 =
       Returned None (set_ShardInfo Scenario.pool0 {[Scenario.shardB := true]}))
  ∧ ShardInfo (set_ShardInfo Scenario.pool0 {[Scenario.shardB := true]}) !! Scenario.shardA = None
  ∧ InitShardInfo 2 Scenario.twoShardLedger' Scenario.pool0 =
      Returned None
        {| PoolShardID := 0;
           Shards := {[Scenario.shardA := {[Scenario.H1 := Scenario.msg1]}]};
           MaxBlockCap := 100;
           ShardInfo := <[Scenario.shardB := true]> {[Scenario.shardA := true]} |}.
Proof. split; [|split]; reflexivity. Qed.

(** C1, on the ledger left by ingesting two linked messages. *)
Lemma InitShardInfo_walk_follows_MessageRoot_witness :
  rootChain Scenario.ingested2.2 Scenario.H1 [Scenario.msg1; Scenario.msg2]
  ∧ ∃ pool',
      initShards 3 Scenario.ingested2.2 [Scenario.shardA] Scenario.pool0 = Returned None pool'
      ∧ shardMsgsOf pool' Scenario.shardA !! Scenario.H2 = Some Scenario.msg2.
Proof.
  assert (Hchain : rootChain Scenario.ingested2.2 Scenario.H1 [Scenario.msg1; Scenario.msg2]).
  { apply rootChain_next; [reflexivity|].
    apply rootChain_next; [reflexivity|].
    apply rootChain_end. reflexivity. }
  split; [exact Hchain|].
  destruct (InitShardInfo_walk_follows_MessageRoot 3 Scenario.ingested2.2 Scenario.shardA []
              Scenario.H1 Scenario.pool0 [Scenario.msg1; Scenario.msg2])
    as (_ & _ & pool' & Hrun & Hentries & _).
  - reflexivity.
  - exact Hchain.
  - apply NoDup_cons. split; [|apply NoDup_singleton].
    intros Hin. apply list_elem_of_singleton in Hin. discriminate.
  - intros msg _. reflexivity.
  - simpl. lia.
  - exists pool'. split; [exact Hrun|].
    apply Hentries. left. split; [|reflexivity]. right. left.
Defined.

(** C1 as worded fails: on the ledger left by ingesting [msg1] and [msg2]
    the step taken at [H1] moves on to [CrossShardMsgRoot msg1 = H2], not
    to [PreCrossShardMsgHash msg1 = H1], and [InitShardInfo] rebuilds both
    entries, where a walk along [PreCrossShardMsgHash] reaches one. *)
Lemma InitShardInfo_walk_not_along_PreviousMessageHash :
  recoverStep Scenario.ingested2.2 Scenario.shardA Scenario.H1 Scenario.pool0 =
    Continue Scenario.H2
      (putMsg (ensureShard Scenario.pool0 Scenario.shardA) Scenario.shardA
         Scenario.H1 Scenario.msg1)
  ∧ Pre Scenario.msg1 ≠ Scenario.H2
  ∧ InitShardInfo 3 Scenario.ingested2.2 Scenario.pool0 =
      Returned None Scenario.recoveredPool
  ∧ specRecoverWalk 3 Scenario.ingested2.2 Scenario.shardA Scenario.H1 Scenario.pool0 =
      Returned None Scenario.specRecoveredPool
  ∧ shardMsgsOf Scenario.recoveredPool Scenario.shardA ≠
      shardMsgsOf Scenario.specRecoveredPool Scenario.shardA.
Proof.
  split; [reflexivity|]. split; [discriminate|].
  split; [reflexivity|]. split; [reflexivity|].
  intros Heq.
  assert (Hlk : shardMsgsOf Scenario.recoveredPool Scenario.shardA !! Scenario.H2
                = shardMsgsOf Scenario.specRecoveredPool Scenario.shardA !! Scenario.H2)
    by (by rewrite Heq).
  discriminate Hlk.
Qed.

(** ** Ingestion, collection and eviction *)

Section PoolOperations.

Context {Payload Transaction Account : Type}.
Context {ext : External Payload Transaction Account}.

Implicit Types (pool : CrossShardPool (Payload := Payload)).
Implicit Types (lgr : Ledger (Payload := Payload)).
Implicit Types (msg : CrossShardMsg (Payload := Payload)).
Implicit Types (msgs : list (CrossShardMsg (Payload := Payload))).
Implicit Types (shardTx : CrossShardTxInfos (Transaction := Transaction)).
Implicit Types (shardTxs : list (CrossShardTxInfos (Transaction := Transaction))).
Implicit Types (visited rest : list (Z * list (CrossShardTxInfos (Transaction := Transaction)))).

Lemma AddCrossShardInfo_present lgr pool msg :
  is_Some (shardMsgsOf pool (From msg) !! Pre msg) →
  AddCrossShardInfo lgr pool msg = (None, (pool, lgr)).
Proof.
  intros Hin. unfold AddCrossShardInfo, ToUint64.
  rewrite shardMsgsOf_ensureShard.
  destruct Hin as [old Hold]. rewrite Hold.
  rewrite ensureShard_present; [done|].
  eapply shardMsgsOf_is_Some. by rewrite Hold.
Qed.

(** Whatever the store answers, a message whose key is free ends up in
    the map of its source shard, and only there. *)
Lemma shardMsgsOf_AddCrossShardInfo lgr pool msg id :
  shardMsgsOf (AddCrossShardInfo lgr pool msg).2.1 id =
    if decide (id = From msg) then
      match shardMsgsOf pool id !! Pre msg with
      | Some _ => shardMsgsOf pool id
      | None => <[Pre msg := msg]> (shardMsgsOf pool id)
      end
    else shardMsgsOf pool id.
Proof.
  unfold AddCrossShardInfo, ToUint64.
  rewrite shardMsgsOf_ensureShard.
  set (pool2 := putMsg (ensureShard pool (From msg)) (From msg) (Pre msg) msg).
  assert (Hput : shardMsgsOf pool2 id =
                 if decide (id = From msg) then <[Pre msg := msg]> (shardMsgsOf pool id)
                 else shardMsgsOf pool id).
  { unfold pool2. rewrite shardMsgsOf_putMsg.
    case_decide; [subst|]; by rewrite shardMsgsOf_ensureShard. }
  destruct (shardMsgsOf pool (From msg) !! Pre msg) as [old|] eqn:Hold.
  - simpl. rewrite shardMsgsOf_ensureShard.
    case_decide; [subst; by rewrite Hold|done].
  - assert (Hgoal : (if decide (id = From msg) then
                       match shardMsgsOf pool id !! Pre msg with
                       | Some _ => shardMsgsOf pool id
                       | None => <[Pre msg := msg]> (shardMsgsOf pool id)
                       end
                     else shardMsgsOf pool id) = shardMsgsOf pool2 id).
    { rewrite Hput. case_decide; [subst; by rewrite Hold|done]. }
    rewrite Hgoal.
    destruct (SaveCrossShardMsgByHash lgr (Pre msg) msg) as [[[]|] lgr1]; [done|].
    destruct (GetCrossShardHashByShardID lgr1 (From msg)); simpl.
    + apply shardMsgsOf_AddShardInfo.
    + destruct (SaveCrossShardHash lgr1 (From msg) (Pre msg)) as [[[]|] lgr2]; [done|].
      simpl. apply shardMsgsOf_AddShardInfo.
    + done.
Qed.

Lemma dom_shardMsgsOf_AddCrossShardInfos shardID msgs :
  ∀ lgr pool,
    dom (shardMsgsOf (AddCrossShardInfos lgr pool msgs).1 shardID) =
      dom (shardMsgsOf pool shardID)
      ∪ list_to_set (Pre <$> filter (λ msg, From msg = shardID) msgs).
Proof.
  induction msgs as [|msg rest IH]; intros lgr pool.
  - simpl. by rewrite (right_id_L ∅ (∪)).
  - simpl. rewrite IH. rewrite shardMsgsOf_AddCrossShardInfo.
    destruct (decide (From msg = shardID)) as [Heq|Hne].
    + rewrite filter_cons_True by done. rewrite decide_True by done.
      destruct (shardMsgsOf pool shardID !! Pre msg) as [old|] eqn:Hold.
      * assert (Pre msg ∈ dom (shardMsgsOf pool shardID)).
        { apply elem_of_dom. by rewrite Hold. }
        rewrite fmap_cons, list_to_set_cons.
        apply set_eq. intros key.
        rewrite !elem_of_union, elem_of_singleton.
        intuition (subst; auto).
      * rewrite dom_insert_L, fmap_cons, list_to_set_cons.
        apply set_eq. intros key.
        rewrite !elem_of_union, elem_of_singleton.
        intuition (subst; auto).
    + rewrite filter_cons_False by done. by rewrite decide_False by done.
Qed.

(** C7. Starting from a pool that holds nothing for a source shard, after
    any run of [AddCrossShardInfo] calls in which the messages of that
    shard carry distinct [PreCrossShardMsgHash] values, the shard's map
    has as many entries as messages of that shard were passed, failed
    calls included; and a call with a key that is already there returns
    [nil] and leaves the pool and the durable store as they were. *)
Theorem AddCrossShardInfo_count_and_idempotence lgr pool shardID msgs :
  shardMsgsOf pool shardID = ∅ →
  NoDup (Pre <$> filter (λ msg, From msg = shardID) msgs) →
  size (shardMsgsOf (AddCrossShardInfos lgr pool msgs).1 shardID) =
    length (filter (λ msg, From msg = shardID) msgs)
  ∧ (∀ lgr' pool' msg,
       is_Some (shardMsgsOf pool' (From msg) !! Pre msg) →
       AddCrossShardInfo lgr' pool' msg = (None, (pool', lgr'))).
Proof.
  intros Hempty Hnodup. split.
  - rewrite <- size_dom, dom_shardMsgsOf_AddCrossShardInfos, Hempty.
    rewrite dom_empty_L, (left_id_L ∅ (∪)).
    rewrite size_list_to_set by done. by rewrite length_fmap.
  - intros lgr' pool' msg. apply AddCrossShardInfo_present.
Qed.

(** C5 (as amended). When persisting the message fails,
    [AddCrossShardInfo] returns the error and goes no further: the durable
    store and the set of known shards are as before, but the message,
    put into the shard's map before the write, stays there. *)
Theorem AddCrossShardInfo_persist_failure lgr pool msg :
  shardMsgsOf pool (From msg) !! Pre msg = None →
  faulty lgr (OpSaveCrossShardMsgByHash (Pre msg)) = true →
  AddCrossShardInfo lgr pool msg =
    (Some (ErrSaveCrossShardMsg (From msg) (Pre msg)),
     (putMsg (ensureShard pool (From msg)) (From msg) (Pre msg) msg, lgr))
  ∧ shardMsgsOf (AddCrossShardInfo lgr pool msg).2.1 (From msg) !! Pre msg = Some msg
  ∧ ShardInfo (AddCrossShardInfo lgr pool msg).2.1 = ShardInfo pool.
Proof.
  intros Hfresh Hfault.
  assert (Hrun : AddCrossShardInfo lgr pool msg =
    (Some (ErrSaveCrossShardMsg (From msg) (Pre msg)),
     (putMsg (ensureShard pool (From msg)) (From msg) (Pre msg) msg, lgr))).
  { unfold AddCrossShardInfo, ToUint64.
    rewrite shardMsgsOf_ensureShard, Hfresh.
    unfold SaveCrossShardMsgByHash. by rewrite Hfault. }
  rewrite Hrun. simpl. split; [done|]. split.
  - rewrite shardMsgsOf_putMsg, decide_True by done. apply lookup_insert_eq.
  - apply ShardInfo_ensureShard.
Qed.

(** C4 (as amended). For a shard that is not the root, when the parent
    ledger is absent or has no record at [parentblkNum - 1],
    [GetCrossShardTxs] returns at once the [nil] map and no error: the
    chains of the pool are not walked. *)
Theorem GetCrossShardTxs_without_parent_record
    fuel lgr pool (account : Account) fromShardID parentblkNum :
  IsRootShard fromShardID = false →
  (ParentLedger lgr = None
   ∨ ∃ parent, ParentLedger lgr = Some parent
               ∧ parent (sub_uint32 parentblkNum 1) fromShardID = ErrNotFound) →
  GetCrossShardTxs fuel lgr pool account fromShardID parentblkNum = Returned None None.
Proof.
  intros Hroot Hparent. unfold GetCrossShardTxs. rewrite Hroot. simpl.
  destruct Hparent as [->|(parent & -> & ->)]; done.
Qed.

(** The walk of [GetCrossShardTxs] returns the pending chain in chain
    order, the message at the persisted hash first. *)
Lemma collectWalk_pendingChain lgr (shardMsgs : gmap Uint256 CrossShardMsg) msgHash msgs :
  pendingChain lgr shardMsgs msgHash msgs →
  ∀ fuel acc,
    (length msgs < fuel)%nat →
    collectWalk fuel lgr shardMsgs msgHash acc = Returned None (acc ++ msgs).
Proof.
  induction 1 as [h Hmem Hget|h msg rest Hmem _ IH|h msg rest Hmem Hget _ IH];
    intros fuel acc Hfuel; (destruct fuel as [|fuel]; [simpl in Hfuel; lia|]); simpl.
  - by rewrite Hmem, Hget, app_nil_r.
  - rewrite Hmem. rewrite IH by (simpl in Hfuel; lia).
    by rewrite <- app_assoc.
  - rewrite Hmem, Hget. rewrite IH by (simpl in Hfuel; lia).
    by rewrite <- app_assoc.
Qed.


(** What the eviction does for a shard the pool has a map for: it deletes
    the key [CrossShardMsgRoot] of every transaction, and a store that
    takes the writes ends with the [PreCrossShardMsgHash] of the last. *)
Lemma delShardTxs_present shardID shardTxs :
  ∀ lgr pool (m : gmap Uint256 CrossShardMsg),
    Shards pool !! shardID = Some m →
    faulty lgr (OpSaveCrossShardHash shardID) = false →
    (delShardTxs lgr pool shardID shardTxs).1 = false
    ∧ shardMsgsOf (delShardTxs lgr pool shardID shardTxs).2.1 shardID =
        foldl (λ m' shardTx, delete (CrossShardMsgRoot (TxShardMsg shardTx)) m') m shardTxs
    ∧ crossShardHash (delShardTxs lgr pool shardID shardTxs).2.2 !! shardID =
        match last shardTxs with
        | Some shardTx => Some (PreCrossShardMsgHash (TxShardMsg shardTx))
        | None => crossShardHash lgr !! shardID
        end.
Proof.
  induction shardTxs as [|shardTx rest IH]; intros lgr pool m Hm Hok.
  - change (delShardTxs lgr pool shardID []) with (false, (pool, lgr)).
    unfold shardMsgsOf. cbn [fst snd]. by rewrite Hm.
  - simpl. rewrite Hm.
    set (pool' := set_Shards pool _). set (lgr' := (SaveCrossShardHash _ _ _).2).
    assert (Hlgr' : crossShardHash lgr' !! shardID =
                    Some (PreCrossShardMsgHash (TxShardMsg shardTx))
                    ∧ faulty lgr' (OpSaveCrossShardHash shardID) = false).
    { unfold lgr', SaveCrossShardHash, LedgerSaveCrossShardHash, NewShardIDUnchecked.
      rewrite Hok. simpl. by rewrite lookup_insert_eq. }
    destruct Hlgr' as [Hptr Hok'].
    destruct (IH lgr' pool' (delete (CrossShardMsgRoot (TxShardMsg shardTx)) m))
      as (Hflag & Hmap & Hhash); [apply lookup_insert_eq|done|].
    split; [exact Hflag|]. split; [exact Hmap|].
    rewrite Hhash. destruct rest as [|shardTx' rest']; [exact Hptr|].
    rewrite last_cons_cons.
    destruct (last (shardTx' :: rest')) eqn:Hlast; [done|].
    by apply last_None in Hlast.
Qed.

Lemma delShardTxs_keeps_missing shardID id shardTxs :
  ∀ lgr pool,
    Shards pool !! id = None →
    Shards (delShardTxs lgr pool shardID shardTxs).2.1 !! id = None.
Proof.
  induction shardTxs as [|shardTx rest IH]; intros lgr pool Hnone; [done|].
  simpl. destruct (Shards pool !! shardID) as [m|] eqn:Hm; [|done].
  apply IH. simpl. rewrite lookup_insert_ne; [done|]. congruence.
Qed.

Lemma DelCrossShardTxs_returns_nil visited :
  ∀ lgr pool, (DelCrossShardTxs lgr pool visited).1 = None.
Proof.
  induction visited as [|[shardID shardTxs] visited IH]; intros lgr pool; [done|].
  simpl. destruct (delShardTxs lgr pool shardID shardTxs) as [[] [pool' lgr']]; [done|].
  apply IH.
Qed.

(** C8. When the loop of [DelCrossShardTxs] comes to a transaction of a
    shard that has no map in the pool, the call returns [nil] there: the
    pool and the store are as the entries visited before left them, and
    the other transactions of that shard and the shards after it are not
    looked at. *)
Theorem DelCrossShardTxs_missing_shard_returns
    lgr pool visited shardID shardTx shardTxs rest :
  Shards pool !! shardID = None →
  DelCrossShardTxs lgr pool (visited ++ (shardID, shardTx :: shardTxs) :: rest) =
    DelCrossShardTxs lgr pool visited
  ∧ (DelCrossShardTxs lgr pool (visited ++ (shardID, shardTx :: shardTxs) :: rest)).1 = None.
Proof.
  intros Hnone. split; [|apply DelCrossShardTxs_returns_nil].
  revert lgr pool Hnone.
  induction visited as [|[id txs] visited IH]; intros lgr pool Hnone.
  - simpl. by rewrite Hnone.
  - simpl.
    pose proof (delShardTxs_keeps_missing id shardID txs lgr pool Hnone) as Hkeep.
    destruct (delShardTxs lgr pool id txs) as [[] [pool' lgr']]; [done|].
    by apply IH.
Qed.

End PoolOperations.

(** C3. The scenario of the specification: [msg1] then [msg2] are
    ingested for [shardA], a root consumer collects, and the returned
    mapping is handed to [DelCrossShardTxs]. The batch is [msg1], [msg2],
    in chain order from the persisted hash [H1], and the persisted hash
    ends as [PreCrossShardMsgHash msg2 = H2]; but the entry of [msg1], the
    first one delivered, is still in the shard's map: the eviction deletes
    the key [CrossShardMsgRoot] of each delivered message, while the map
    is keyed by [PreCrossShardMsgHash]. *)
Theorem GetCrossShardTxs_DelCrossShardTxs_keeps_first_entry :
  GetCrossShardTxs (ext := Scenario.ext) 3 Scenario.ingested2.2 Scenario.ingested2.1 () 0 7 =
    Returned None (Some {[Scenario.shardA := Scenario.batch 0]})
  ∧ crossShardHash Scenario.ingested2.2 !! Scenario.shardA = Some Scenario.H1
  ∧ shardMsgsOf Scenario.ingested2.1 Scenario.shardA =
      <[Scenario.H2 := Scenario.msg2]> {[Scenario.H1 := Scenario.msg1]}
  ∧ map_to_list ({[Scenario.shardA := Scenario.batch 0]} : gmap Z _) =
      [(Scenario.shardA, Scenario.batch 0)]
  ∧ crossShardHash
      (DelCrossShardTxs Scenario.ingested2.2 Scenario.ingested2.1
         [(Scenario.shardA, Scenario.batch 0)]).2.2 !! Scenario.shardA = Some Scenario.H2
  ∧ shardMsgsOf
      (DelCrossShardTxs Scenario.ingested2.2 Scenario.ingested2.1
         [(Scenario.shardA, Scenario.batch 0)]).2.1 Scenario.shardA =
      {[Scenario.H1 := Scenario.msg1]}.
Proof. repeat split; reflexivity. Qed.

(** C4 as worded fails: with [msg1] and [msg2] pending for [shardA], a
    consumer that is not the root and has no parent ledger gets the [nil]
    map, although the walk over the pool's chains, had it been made,
    yields a batch of two for [shardA]. *)
Lemma GetCrossShardTxs_without_parent_skips_pool :
  IsRootShard (External := Scenario.ext) Scenario.shardB = false
  ∧ ParentLedger Scenario.ingested2.2 = None
  ∧ GetCrossShardTxs (ext := Scenario.ext) 3 Scenario.ingested2.2 Scenario.ingested2.1
      () Scenario.shardB 7 = Returned None None
  ∧ collectShards (ext := Scenario.ext) 3 Scenario.ingested2.2 () Scenario.shardB
      (map_to_list (Shards Scenario.ingested2.1)) ∅ =
      Returned None (Some {[Scenario.shardA := Scenario.batch Scenario.shardB]}).
Proof. repeat split; reflexivity. Qed.

(** C4, for a consumer without a parent ledger. *)
Lemma GetCrossShardTxs_without_parent_record_witness :
  IsRootShard (External := Scenario.ext) Scenario.shardB = false
  ∧ GetCrossShardTxs (ext := Scenario.ext) 3 Scenario.ingested2.2 Scenario.ingested2.1
      () Scenario.shardB 7 = Returned None None.
Proof.
  split; [reflexivity|].
  apply GetCrossShardTxs_without_parent_record; [reflexivity|].
  left. reflexivity.
Defined.

(** C5 as worded fails: on a store that refuses the write the call
    returns the error, yet the message, absent before, is in the shard's
    map after; and a second call with the same message returns [nil]
    with the message still not persisted. *)
Lemma AddCrossShardInfo_failed_persist_is_observable :
  (AddCrossShardInfo Scenario.readOnlyLedger Scenario.pool0 Scenario.msg1).1 =
    Some (ErrSaveCrossShardMsg Scenario.shardA Scenario.H1)
  ∧ shardMsgsOf Scenario.pool0 Scenario.shardA !! Scenario.H1 = None
  ∧ shardMsgsOf (AddCrossShardInfo Scenario.readOnlyLedger Scenario.pool0 Scenario.msg1).2.1
      Scenario.shardA !! Scenario.H1 = Some Scenario.msg1
  ∧ (AddCrossShardInfo Scenario.readOnlyLedger Scenario.pool0 Scenario.msg1).2.1 ≠ Scenario.pool0
  ∧ (AddCrossShardInfo Scenario.readOnlyLedger
       (AddCrossShardInfo Scenario.readOnlyLedger Scenario.pool0 Scenario.msg1).2.1
       Scenario.msg1).1 = None
  ∧ GetCrossShardMsgByHash Scenario.readOnlyLedger Scenario.H1 = ErrNotFound.
Proof.
  split; [reflexivity|]. split; [reflexivity|]. split; [reflexivity|].
  split; [|split; reflexivity].
  intros Heq.
  assert (Hlk : shardMsgsOf
                  (AddCrossShardInfo Scenario.readOnlyLedger Scenario.pool0 Scenario.msg1).2.1
                  Scenario.shardA !! Scenario.H1
                = shardMsgsOf Scenario.pool0 Scenario.shardA !! Scenario.H1)
    by (by rewrite Heq).
  discriminate Hlk.
Qed.

(** C5, on a store that refuses to persist messages. *)
Lemma AddCrossShardInfo_persist_failure_witness :
  faulty Scenario.readOnlyLedger (OpSaveCrossShardMsgByHash (Pre Scenario.msg1)) = true
  ∧ shardMsgsOf (AddCrossShardInfo Scenario.readOnlyLedger Scenario.pool0 Scenario.msg1).2.1
      (From Scenario.msg1) !! Pre Scenario.msg1 = Some Scenario.msg1.
Proof.
  split; [reflexivity|].
  apply (AddCrossShardInfo_persist_failure Scenario.readOnlyLedger Scenario.pool0 Scenario.msg1);
    reflexivity.
Defined.

(** C7, for the two messages of [shardA] ingested into a fresh pool. *)
Lemma AddCrossShardInfo_count_and_idempotence_witness :
  size (shardMsgsOf
          (AddCrossShardInfos Scenario.emptyLedger Scenario.pool0
             [Scenario.msg1; Scenario.msg2]).1 Scenario.shardA) = 2%nat
  ∧ AddCrossShardInfo Scenario.ingested2.2 Scenario.ingested2.1 Scenario.msg1 =
      (None, (Scenario.ingested2.1, Scenario.ingested2.2)).
Proof.
  destruct (AddCrossShardInfo_count_and_idempotence Scenario.emptyLedger Scenario.pool0
              Scenario.shardA [Scenario.msg1; Scenario.msg2]) as [Hsize Hidem].
  - reflexivity.
  - apply (NoDup_cons_2 Scenario.H1 [Scenario.H2]); [|apply NoDup_singleton].
    intros Hin. apply list_elem_of_singleton in Hin. discriminate.
  - split; [exact Hsize|].
    apply Hidem. exists Scenario.msg1. reflexivity.
Defined.

(** C8, for a mapping that names [shardB], which the pool has no map for,
    between two entries of [shardA]. *)
Lemma DelCrossShardTxs_missing_shard_returns_witness :
  Shards Scenario.ingested2.1 !! Scenario.shardB = None
  ∧ DelCrossShardTxs Scenario.ingested2.2 Scenario.ingested2.1
      ([(Scenario.shardA, take 1 (Scenario.batch 0))]
       ++ (Scenario.shardB, Scenario.batch 0) :: [(Scenario.shardA, drop 1 (Scenario.batch 0))]) =
    DelCrossShardTxs Scenario.ingested2.2 Scenario.ingested2.1
      [(Scenario.shardA, take 1 (Scenario.batch 0))].
Proof.
  split; [reflexivity|].
  apply (DelCrossShardTxs_missing_shard_returns Scenario.ingested2.2 Scenario.ingested2.1
           [(Scenario.shardA, take 1 (Scenario.batch 0))] Scenario.shardB).
  reflexivity.
Defined.

(** ** Decoding of events and requests *)

Section EventsTheory.

Context {codec : Codec}.

Implicit Types (tx payload evtPayload : bytes) (txs : list bytes).
Implicit Types (reqs : list CommonShardReq).

Lemma decodeReqs_all_parse txs :
  ∀ reqs acc,
    Forall2 (λ tx req, DeserializeCommonShardReq tx = inr req) txs reqs →
    decodeReqs txs acc = inr (acc ++ reqs).
Proof.
  induction txs as [|tx rest IH]; intros reqs acc Hall.
  - apply Forall2_nil_inv_l in Hall as ->. simpl. by rewrite app_nil_r.
  - apply Forall2_cons_inv_l in Hall as (req & reqs' & Hreq & Hrest & ->).
    simpl. rewrite Hreq. rewrite (IH reqs' (acc ++ [req]) Hrest).
    by rewrite <- app_assoc.
Qed.

Lemma decodeReqs_first_failure parsed :
  ∀ tx rest err acc,
    Forall (λ tx', ∃ req, DeserializeCommonShardReq tx' = inr req) parsed →
    DeserializeCommonShardReq tx = inl err →
    decodeReqs (parsed ++ tx :: rest) acc = inl (ErrUnmarshalReqTx err tx).
Proof.
  induction parsed as [|tx' parsed IH]; intros tx rest err acc Hparsed Hbad.
  - simpl. by rewrite Hbad.
  - apply Forall_cons in Hparsed as [[req Hreq] Hparsed].
    simpl. rewrite Hreq. by apply IH.
Qed.

(** A list with an element that does not parse splits at the first such
    element. *)
Lemma first_failure_split txs :
  (∃ tx, tx ∈ txs ∧ ∃ err, DeserializeCommonShardReq tx = inl err) →
  ∃ parsed tx rest err,
    txs = parsed ++ tx :: rest
    ∧ Forall (λ tx', ∃ req, DeserializeCommonShardReq tx' = inr req) parsed
    ∧ DeserializeCommonShardReq tx = inl err.
Proof.
  induction txs as [|tx0 txs IH]; intros (tx & Hin & err & Hbad).
  - by apply elem_of_nil in Hin.
  - destruct (DeserializeCommonShardReq tx0) as [err0|req0] eqn:H0.
    + exists [], tx0, txs, err0. by repeat split.
    + destruct IH as (parsed & tx' & rest & err' & -> & Hparsed & Hbad').
      { apply elem_of_cons in Hin as [->|Hin]; [congruence|].
        exists tx. split; [done|]. by exists err. }
      exists (tx0 :: parsed), tx', rest, err'. repeat split; [|done].
      apply Forall_cons. split; [by exists req0|done].
Qed.

(** C9. Once the container is unwrapped into its elements: if some
    element does not parse, [DecodeShardCommonReqs] returns no list but
    the error that carries the raw bytes of the first element that does
    not parse; if every element parses, it returns the decoded requests,
    one per element, in the order of the elements. *)
Theorem DecodeShardCommonReqs_all_or_nothing payload txs :
  UnmarshalCrossShardTx payload = inr txs →
  ((∃ tx, tx ∈ txs ∧ ∃ err, DeserializeCommonShardReq tx = inl err) →
     ∃ parsed tx rest err,
       txs = parsed ++ tx :: rest
       ∧ Forall (λ tx', ∃ req, DeserializeCommonShardReq tx' = inr req) parsed
       ∧ DeserializeCommonShardReq tx = inl err
       ∧ DecodeShardCommonReqs payload = inl (ErrUnmarshalReqTx err tx))
  ∧ ((∀ tx, tx ∈ txs → ∃ req, DeserializeCommonShardReq tx = inr req) →
     ∃ reqs,
       Forall2 (λ tx req, DeserializeCommonShardReq tx = inr req) txs reqs
       ∧ DecodeShardCommonReqs payload = inr reqs).
Proof.
  intros Hunwrap. unfold DecodeShardCommonReqs. rewrite Hunwrap. split.
  - intros Hbad.
    destruct (first_failure_split txs Hbad) as (parsed & tx & rest & err & -> & Hparsed & Herr).
    exists parsed, tx, rest, err. repeat split; try done.
    by apply decodeReqs_first_failure.
  - intros Hall.
    assert (Hreqs : ∃ reqs,
               Forall2 (λ tx req, DeserializeCommonShardReq tx = inr req) txs reqs).
    { clear Hunwrap. induction txs as [|tx txs IH]; [by exists []|].
      destruct (Hall tx) as [req Hreq]; [by left|].
      destruct IH as [reqs Hreqs]; [intros tx' Hin; apply Hall; by right|].
      exists (req :: reqs). by apply Forall2_cons. }
    destruct Hreqs as [reqs Hreqs]. exists reqs. split; [done|].
    by rewrite (decodeReqs_all_parse txs reqs [] Hreqs).
Qed.

(** C10. With the three tags of the switch distinct, as Go demands of the
    cases of a switch: a tag that is none of them makes [DecodeShardEvent]
    return no event and the unknown-type error, and the tag
    [EVENT_SHARD_GAS_WITHDRAW_DONE] makes it return no event and no
    error, whatever the payload. *)
Theorem DecodeShardEvent_unknown_tag_and_withdraw_done :
  EVENT_SHARD_GAS_WITHDRAW_DONE ≠ EVENT_SHARD_GAS_DEPOSIT →
  EVENT_SHARD_GAS_WITHDRAW_DONE ≠ EVENT_SHARD_GAS_WITHDRAW_REQ →
  (∀ evtType evtPayload,
     evtType ≠ EVENT_SHARD_GAS_DEPOSIT →
     evtType ≠ EVENT_SHARD_GAS_WITHDRAW_REQ →
     evtType ≠ EVENT_SHARD_GAS_WITHDRAW_DONE →
     DecodeShardEvent evtType evtPayload = (None, Some (ErrUnknownRemoteEventType evtType)))
  ∧ (∀ evtPayload,
       DecodeShardEvent EVENT_SHARD_GAS_WITHDRAW_DONE evtPayload = (None, None)).
Proof.
  intros Hdeposit Hreq. split.
  - intros evtType evtPayload H1 H2 H3. unfold DecodeShardEvent.
    apply Z.eqb_neq in H1, H2, H3. by rewrite H1, H2, H3.
  - intros evtPayload. unfold DecodeShardEvent.
    apply Z.eqb_neq in Hdeposit, Hreq. by rewrite Hdeposit, Hreq, Z.eqb_refl.
Qed.

End EventsTheory.

(** C9, for a container of three elements, the middle one malformed. *)
Lemma DecodeShardCommonReqs_all_or_nothing_witness :
  UnmarshalCrossShardTx (Codec := Scenario.codec) [Byte.x01; Byte.x00; Byte.x02] =
    inr [[Byte.x01]; [Byte.x00]; [Byte.x02]]
  ∧ ∃ tx err,
      DecodeShardCommonReqs (codec := Scenario.codec) [Byte.x01; Byte.x00; Byte.x02] =
        inl (ErrUnmarshalReqTx err tx).
Proof.
  split; [reflexivity|].
  destruct (DecodeShardCommonReqs_all_or_nothing (codec := Scenario.codec)
              [Byte.x01; Byte.x00; Byte.x02] [[Byte.x01]; [Byte.x00]; [Byte.x02]])
    as [Hbad _]; [reflexivity|].
  destruct Hbad as (parsed & tx & rest & err & _ & _ & _ & Hrun).
  - exists [Byte.x00]. split; [right; left|].
    exists "invalid request"%string. reflexivity.
  - exists tx, err. exact Hrun.
Defined.

(** C10, for the tags 256, 257 and 258 and the unknown tag 9999. *)
Lemma DecodeShardEvent_unknown_tag_and_withdraw_done_witness :
  DecodeShardEvent (codec := Scenario.codec) 9999 [Byte.x01] =
    (None, Some (ErrUnknownRemoteEventType 9999))
  ∧ DecodeShardEvent (codec := Scenario.codec) 258 [Byte.x01] = (None, None).
Proof.
  destruct (DecodeShardEvent_unknown_tag_and_withdraw_done (codec := Scenario.codec))
    as [Hunknown Hdone]; [discriminate|discriminate|].
  split.
  - apply Hunknown; discriminate.
  - apply Hdone.
Defined.

(** ** What recovery keeps *)

Section RecoveryInvariants.

Context {Payload : Type}.

Implicit Types (pool : CrossShardPool (Payload := Payload)).
Implicit Types (lgr : Ledger (Payload := Payload)).
Implicit Types (msg : CrossShardMsg (Payload := Payload)).

(** What a pool has that an earlier pool had: the same set of known
    shards, and every entry of the earlier one. *)
Lemma recoverWalk_grows lgr shardId fuel :
  ∀ msgHash pool err pool',
    recoverWalk fuel lgr shardId msgHash pool = Returned err pool' →
    ShardInfo pool' = ShardInfo pool
    ∧ (∀ id key msg, shardMsgsOf pool id !! key = Some msg →
                     shardMsgsOf pool' id !! key = Some msg)
    ∧ (keyedByPre pool → keyedByPre pool').
Proof.
  induction fuel as [|fuel IH]; intros msgHash pool err pool' Hrun; [done|].
  simpl in Hrun. unfold recoverStep, ToUint64 in Hrun.
  destruct (GetCrossShardMsgByHash lgr msgHash) as [msg| |].
  - rewrite shardMsgsOf_ensureShard in Hrun.
    destruct (shardMsgsOf pool shardId !! Pre msg) as [old|] eqn:Hold.
    + apply IH in Hrun as (Hinfo & Hentries & Hkeyed).
      rewrite ShardInfo_ensureShard in Hinfo. split; [done|]. split.
      * intros id key msg' Hlk. apply Hentries. by rewrite shardMsgsOf_ensureShard.
      * intros Hk. apply Hkeyed. intros id key msg' Hlk.
        rewrite shardMsgsOf_ensureShard in Hlk. by apply (Hk id).
    + apply IH in Hrun as (Hinfo & Hentries & Hkeyed).
      rewrite ShardInfo_putMsg, ShardInfo_ensureShard in Hinfo. split; [done|]. split.
      * intros id key msg' Hlk. apply Hentries. rewrite shardMsgsOf_putMsg.
        case_decide as Hid; [|by rewrite shardMsgsOf_ensureShard].
        subst id. rewrite shardMsgsOf_ensureShard, lookup_insert_ne; [done|].
        intros <-. congruence.
      * intros Hk. apply Hkeyed. intros id key msg' Hlk.
        rewrite shardMsgsOf_putMsg in Hlk.
        case_decide as Hid; [|rewrite shardMsgsOf_ensureShard in Hlk; by apply (Hk id)].
        subst id. rewrite shardMsgsOf_ensureShard in Hlk.
        destruct (decide (Pre msg = key)) as [<-|Hne].
        -- rewrite lookup_insert_eq in Hlk. by injection Hlk as <-.
        -- rewrite lookup_insert_ne in Hlk by done. by apply (Hk shardId).
  - by injection Hrun as <- <-.
  - by injection Hrun as <- <-.
Qed.

Lemma initShards_grows lgr fuel shardIds :
  ∀ pool err pool',
    initShards fuel lgr shardIds pool = Returned err pool' →
    (∀ id, is_Some (ShardInfo pool !! id) → is_Some (ShardInfo pool' !! id))
    ∧ (∀ id, ShardInfo pool !! id = Some true → ShardInfo pool' !! id = Some true)
    ∧ (∀ id key msg, shardMsgsOf pool id !! key = Some msg →
                     shardMsgsOf pool' id !! key = Some msg)
    ∧ (keyedByPre pool → keyedByPre pool').
Proof.
  induction shardIds as [|shardId rest IH]; intros pool err pool' Hrun.
  - injection Hrun as <- <-. done.
  - simpl in Hrun.
    set (pool1 := set_ShardInfo pool (<[shardId := true]> (ShardInfo pool))) in Hrun.
    assert (Hsome : ∀ id, is_Some (ShardInfo pool !! id) → is_Some (ShardInfo pool1 !! id)).
    { intros id Hid. simpl. destruct (decide (shardId = id)) as [->|Hne].
      - rewrite lookup_insert_eq. by eexists.
      - by rewrite lookup_insert_ne. }
    assert (Htrue : ∀ id, ShardInfo pool !! id = Some true → ShardInfo pool1 !! id = Some true).
    { intros id Hid. simpl. destruct (decide (shardId = id)) as [->|Hne].
      - by rewrite lookup_insert_eq.
      - by rewrite lookup_insert_ne. }
    destruct (GetCrossShardHashByShardID lgr shardId) as [msgHash| |].
    + destruct (recoverWalk fuel lgr shardId msgHash pool1) as [werr pool2|] eqn:Hwalk; [|done].
      apply recoverWalk_grows in Hwalk as (Hinfo & Hentries & Hkeyed).
      assert (Hstep : (∀ id, is_Some (ShardInfo pool !! id) → is_Some (ShardInfo pool2 !! id))
                      ∧ (∀ id, ShardInfo pool !! id = Some true → ShardInfo pool2 !! id = Some true)).
      { rewrite Hinfo. done. }
      destruct Hstep as [Hsome2 Htrue2].
      destruct werr as [e|].
      * injection Hrun as <- <-. done.
      * apply IH in Hrun as (Hs & Ht & He & Hk).
        split; [intros id Hid; apply Hs, Hsome2, Hid|].
        split; [intros id Hid; apply Ht, Htrue2, Hid|].
        split; [intros id key msg Hlk; apply He, Hentries; exact Hlk|].
        intros Hkp. apply Hk, Hkeyed. exact Hkp.
    + injection Hrun as <- <-. done.
    + injection Hrun as <- <-. done.
Qed.

(** X1. Whatever [InitShardInfo] returns, an error included, it has only
    added to the pool: every shard known before is known after, and every
    entry of every per-shard map is still there under its key. *)
Theorem InitShardInfo_only_adds fuel lgr pool err pool' :
  InitShardInfo fuel lgr pool = Returned err pool' →
  (∀ id, is_Some (GetShardInfo pool !! id) → is_Some (GetShardInfo pool' !! id))
  ∧ (∀ id key msg, shardMsgsOf pool id !! key = Some msg →
                   shardMsgsOf pool' id !! key = Some msg).
Proof.
  unfold InitShardInfo, GetShardInfo. intros Hrun.
  destruct (GetAllShardIDs lgr) as [shardIds| |].
  - apply initShards_grows in Hrun as (Hs & _ & He & _). done.
  - apply initShards_grows in Hrun as (Hs & _ & He & _). done.
  - injection Hrun as <- <-. done.
Qed.

Lemma initShards_marks lgr fuel shardIds :
  ∀ pool pool',
    initShards fuel lgr shardIds pool = Returned None pool' →
    (∀ id, id ∈ shardIds → GetCrossShardHashByShardID lgr id ≠ ErrNotFound) →
    ∀ id, id ∈ shardIds → ShardInfo pool' !! id = Some true.
Proof.
  induction shardIds as [|shardId rest IH]; intros pool pool' Hrun Hptr id Hin.
  - by apply elem_of_nil in Hin.
  - simpl in Hrun.
    set (pool1 := set_ShardInfo pool (<[shardId := true]> (ShardInfo pool))) in Hrun.
    pose proof (Hptr shardId ltac:(by left)) as Hhere.
    destruct (GetCrossShardHashByShardID lgr shardId) as [msgHash| |]; [|done..].
    destruct (recoverWalk fuel lgr shardId msgHash pool1) as [werr pool2|] eqn:Hwalk; [|done].
    destruct werr as [e|]; [done|].
    apply recoverWalk_grows in Hwalk as (Hinfo & _ & _).
    apply elem_of_cons in Hin as [->|Hin].
    + apply initShards_grows in Hrun as (_ & Htrue & _ & _).
      apply Htrue. rewrite Hinfo. simpl. apply lookup_insert_eq.
    + apply (IH pool2 pool' Hrun); [|done].
      intros id' Hin'. apply Hptr. by right.
Qed.

(** X2. When [InitShardInfo] returns [nil] and each shard id the ledger
    lists has a persisted hash, every listed shard id is known to the
    pool afterwards. *)
Theorem InitShardInfo_marks_listed_shards fuel lgr pool pool' shardIds :
  InitShardInfo fuel lgr pool = Returned None pool' →
  GetAllShardIDs lgr = Found shardIds →
  (∀ id, id ∈ shardIds → GetCrossShardHashByShardID lgr id ≠ ErrNotFound) →
  ∀ id, id ∈ shardIds → GetShardInfo pool' !! id = Some true.
Proof.
  unfold InitShardInfo, GetShardInfo. intros Hrun Hids Hptr.
  rewrite Hids in Hrun. by apply (initShards_marks lgr fuel shardIds pool).
Qed.

End RecoveryInvariants.

(** ** What eviction touches *)

Section EvictionInvariants.

Context {Payload Transaction : Type}.

Implicit Types (pool : CrossShardPool (Payload := Payload)).
Implicit Types (lgr : Ledger (Payload := Payload)).
Implicit Types (msg : CrossShardMsg (Payload := Payload)).
Implicit Types (shardTx : CrossShardTxInfos (Transaction := Transaction)).
Implicit Types (shardTxs : list (CrossShardTxInfos (Transaction := Transaction))).
Implicit Types (order : list (Z * list (CrossShardTxInfos (Transaction := Transaction)))).

Lemma SaveCrossShardHash_frame lgr (shardID : Z) (msgHash : Z) :
  allShardIDs (SaveCrossShardHash lgr shardID msgHash).2 = allShardIDs lgr
  ∧ crossShardMsgs (SaveCrossShardHash lgr shardID msgHash).2 = crossShardMsgs lgr
  ∧ faulty (SaveCrossShardHash lgr shardID msgHash).2 = faulty lgr
  ∧ ParentLedger (SaveCrossShardHash lgr shardID msgHash).2 = ParentLedger lgr
  ∧ ∀ id, id ≠ shardID →
      crossShardHash (SaveCrossShardHash lgr shardID msgHash).2 !! id = crossShardHash lgr !! id.
Proof.
  unfold SaveCrossShardHash, LedgerSaveCrossShardHash.
  destruct (faulty lgr (OpSaveCrossShardHash shardID)); simpl; [done|].
  repeat split. intros id Hne. by rewrite lookup_insert_ne.
Qed.

Lemma delShardTxs_frame (shardID : Z) shardTxs :
  ∀ lgr pool,
    ShardInfo (delShardTxs lgr pool shardID shardTxs).2.1 = ShardInfo pool
    ∧ dom (Shards (delShardTxs lgr pool shardID shardTxs).2.1) = dom (Shards pool)
    ∧ (∀ id key msg,
         shardMsgsOf (delShardTxs lgr pool shardID shardTxs).2.1 id !! key = Some msg →
         shardMsgsOf pool id !! key = Some msg)
    ∧ (∀ id, id ≠ shardID →
         shardMsgsOf (delShardTxs lgr pool shardID shardTxs).2.1 id = shardMsgsOf pool id
         ∧ crossShardHash (delShardTxs lgr pool shardID shardTxs).2.2 !! id =
             crossShardHash lgr !! id)
    ∧ allShardIDs (delShardTxs lgr pool shardID shardTxs).2.2 = allShardIDs lgr
    ∧ crossShardMsgs (delShardTxs lgr pool shardID shardTxs).2.2 = crossShardMsgs lgr
    ∧ faulty (delShardTxs lgr pool shardID shardTxs).2.2 = faulty lgr
    ∧ ParentLedger (delShardTxs lgr pool shardID shardTxs).2.2 = ParentLedger lgr.
Proof.
  induction shardTxs as [|shardTx rest IH]; intros lgr pool; [done|].
  simpl. destruct (Shards pool !! shardID) as [m|] eqn:Hm; [|done].
  set (pool1 := set_Shards pool _). set (lgr1 := (SaveCrossShardHash _ _ _).2).
  destruct (IH lgr1 pool1) as (Hinfo & Hdom & Hsub & Hother & Hids & Hmsgs & Hfaulty & Hparent).
  destruct (SaveCrossShardHash_frame lgr (NewShardIDUnchecked shardID)
              (PreCrossShardMsgHash (TxShardMsg shardTx)))
    as (Sids & Smsgs & Sfaulty & Sparent & Sother).
  fold lgr1 in Sids, Smsgs, Sfaulty, Sparent, Sother.
  assert (Hone : ∀ id, id ≠ shardID → shardMsgsOf pool1 id = shardMsgsOf pool id).
  { intros id Hne. unfold shardMsgsOf, pool1. simpl. by rewrite lookup_insert_ne. }
  split; [by rewrite Hinfo|]. split.
  { rewrite Hdom. unfold pool1. simpl. rewrite dom_insert_L.
    apply subseteq_union_1_L, singleton_subseteq_l, elem_of_dom. by rewrite Hm. }
  split.
  { intros id key msg Hlk. apply Hsub in Hlk.
    destruct (decide (id = shardID)) as [->|Hne]; [|by rewrite <- Hone].
    unfold shardMsgsOf, pool1 in Hlk. simpl in Hlk. rewrite lookup_insert_eq in Hlk.
    simpl in Hlk. unfold shardMsgsOf. rewrite Hm. simpl.
    destruct (decide (CrossShardMsgRoot (TxShardMsg shardTx) = key)) as [<-|Hk].
    - by rewrite lookup_delete_eq in Hlk.
    - by rewrite lookup_delete_ne in Hlk. }
  split.
  { intros id Hne. destruct (Hother id Hne) as [-> ->].
    split; [by apply Hone|]. by apply Sother. }
  by rewrite Hids, Hmsgs, Hfaulty, Hparent.
Qed.

Lemma DelCrossShardTxs_only_evicts_frame order :
  ∀ lgr pool id key msg,
    shardMsgsOf (DelCrossShardTxs lgr pool order).2.1 id !! key = Some msg →
    shardMsgsOf pool id !! key = Some msg.
Proof.
  induction order as [|[shardID shardTxs] rest IH]; intros lgr pool id key msg; [done|].
  simpl.
  destruct (delShardTxs_frame shardID shardTxs lgr pool) as (_ & _ & Hsub & _).
  destruct (delShardTxs lgr pool shardID shardTxs) as [[] [pool1 lgr1]]; simpl in *.
  - apply Hsub.
  - intros Hlk. by apply Hsub, (IH lgr1 pool1).
Qed.

(** X3. [DelCrossShardTxs] only evicts: the set of known shards, the
    shards the pool keeps a map for, the stored messages and the stored
    shard ids are as before, and every entry still in a per-shard map was
    there before. *)
Theorem DelCrossShardTxs_only_evicts order :
  ∀ lgr pool,
    GetShardInfo (DelCrossShardTxs lgr pool order).2.1 = GetShardInfo pool
    ∧ dom (Shards (DelCrossShardTxs lgr pool order).2.1) = dom (Shards pool)
    ∧ (∀ id key msg,
         shardMsgsOf (DelCrossShardTxs lgr pool order).2.1 id !! key = Some msg →
         shardMsgsOf pool id !! key = Some msg)
    ∧ crossShardMsgs (DelCrossShardTxs lgr pool order).2.2 = crossShardMsgs lgr
    ∧ allShardIDs (DelCrossShardTxs lgr pool order).2.2 = allShardIDs lgr.
Proof.
  unfold GetShardInfo.
  induction order as [|[shardID shardTxs] rest IH]; intros lgr pool; [done|].
  simpl.
  destruct (delShardTxs_frame shardID shardTxs lgr pool)
    as (Hinfo & Hdom & Hsub & _ & Hids & Hmsgs & _ & _).
  destruct (delShardTxs lgr pool shardID shardTxs) as [[] [pool1 lgr1]]; simpl in *.
  - done.
  - destruct (IH lgr1 pool1) as (Rinfo & Rdom & Rsub & Rmsgs & Rids).
    split; [by rewrite Rinfo|]. split; [by rewrite Rdom|].
    split; [intros id key msg Hlk; by apply Hsub, Rsub|].
    by rewrite Rmsgs, Rids.
Qed.

Lemma DelCrossShardTxs_other order :
  ∀ lgr pool (id : Z),
    id ∉ order.*1 →
    shardMsgsOf (DelCrossShardTxs lgr pool order).2.1 id = shardMsgsOf pool id
    ∧ crossShardHash (DelCrossShardTxs lgr pool order).2.2 !! id = crossShardHash lgr !! id.
Proof.
  induction order as [|[shardID shardTxs] rest IH]; intros lgr pool id Hnotin; [done|].
  apply not_elem_of_cons in Hnotin as [Hne Hnotin]. simpl in Hne.
  simpl.
  destruct (delShardTxs_frame shardID shardTxs lgr pool)
    as (_ & _ & _ & Hother & _).
  destruct (Hother id Hne) as [Hmap Hhash].
  destruct (delShardTxs lgr pool shardID shardTxs) as [[] [pool1 lgr1]]; simpl in *.
  - done.
  - destruct (IH lgr1 pool1 id Hnotin) as [-> ->]. done.
Qed.

(** X4. For a mapping whose shards all have a map in the pool, on a
    store that takes the hash writes: [DelCrossShardTxs] removes from
    each shard's map the keys [CrossShardMsgRoot] of that shard's
    transactions and nothing else, and leaves as the shard's persisted
    hash the [PreCrossShardMsgHash] of its last transaction (the hash is
    not touched for a shard with no transaction). *)
Theorem DelCrossShardTxs_effect order :
  ∀ lgr pool,
    NoDup order.*1 →
    (∀ id shardTxs, (id, shardTxs) ∈ order →
       is_Some (Shards pool !! id) ∧ faulty lgr (OpSaveCrossShardHash id) = false) →
    ∀ id shardTxs, (id, shardTxs) ∈ order →
      shardMsgsOf (DelCrossShardTxs lgr pool order).2.1 id =
        foldl (λ m shardTx, delete (CrossShardMsgRoot (TxShardMsg shardTx)) m)
          (shardMsgsOf pool id) shardTxs
      ∧ crossShardHash (DelCrossShardTxs lgr pool order).2.2 !! id =
          match last shardTxs with
          | Some shardTx => Some (PreCrossShardMsgHash (TxShardMsg shardTx))
          | None => crossShardHash lgr !! id
          end.
Proof.
  induction order as [|[shardID0 shardTxs0] rest IH];
    intros lgr pool Hnodup Hok id shardTxs Hin.
  - by apply elem_of_nil in Hin.
  - rewrite fmap_cons in Hnodup. apply NoDup_cons in Hnodup as [Hfresh Hnodup].
    simpl in Hfresh.
    destruct (Hok shardID0 shardTxs0 ltac:(by left)) as [[m0 Hm0] Hw0].
    destruct (delShardTxs_present shardID0 shardTxs0 lgr pool m0 Hm0 Hw0)
      as (Hflag & Hmap & Hhash).
    destruct (delShardTxs_frame shardID0 shardTxs0 lgr pool)
      as (_ & Hdom & _ & Hother & _ & _ & Hfaulty & _).
    simpl.
    destruct (delShardTxs lgr pool shardID0 shardTxs0) as [flag [pool1 lgr1]] eqn:Hdel.
    simpl in *. subst flag.
    apply elem_of_cons in Hin as [Heq|Hin].
    + injection Heq as -> ->.
      destruct (DelCrossShardTxs_other rest lgr1 pool1 shardID0 Hfresh) as [-> ->].
      rewrite Hmap, Hhash. unfold shardMsgsOf. by rewrite Hm0.
    + assert (Hne : id ≠ shardID0).
      { intros ->. apply Hfresh. apply list_elem_of_fmap. by exists (shardID0, shardTxs). }
      destruct (Hother id Hne) as [Hm Hh].
      destruct (IH lgr1 pool1 Hnodup) with (id := id) (shardTxs := shardTxs)
        as [-> ->]; [|done|].
      * intros id' txs' Hin'. destruct (Hok id' txs' ltac:(by right)) as [Hsome Hw].
        split; [|by rewrite Hfaulty].
        apply elem_of_dom. rewrite Hdom. by apply elem_of_dom.
      * by rewrite Hm, Hh.
Qed.

End EvictionInvariants.

(** ** What ingestion writes *)

Section IngestionInvariants.

Context {Payload : Type}.

Implicit Types (pool : CrossShardPool (Payload := Payload)).
Implicit Types (lgr : Ledger (Payload := Payload)).
Implicit Types (msg : CrossShardMsg (Payload := Payload)).
Implicit Types (msgs : list (CrossShardMsg (Payload := Payload))).

(** X5. [AddShardInfo] on a known shard changes nothing. On a new shard
    it marks the shard and leaves the per-shard maps alone; a store that
    takes the write then lists exactly the known shards, each once, and a
    store that refuses it is left as it was, without a word to the
    caller. *)
Theorem AddShardInfo_persists_known_shards lgr pool (shardID : Z) :
  (is_Some (GetShardInfo pool !! shardID) → AddShardInfo lgr pool shardID = (pool, lgr))
  ∧ (GetShardInfo pool !! shardID = None →
     GetShardInfo (AddShardInfo lgr pool shardID).1 = <[shardID := true]> (GetShardInfo pool)
     ∧ Shards (AddShardInfo lgr pool shardID).1 = Shards pool
     ∧ (faulty lgr OpSaveAllShardIDs = false →
        ∃ ids, allShardIDs (AddShardInfo lgr pool shardID).2 = Some ids
               ∧ NoDup ids
               ∧ ∀ id, id ∈ ids ↔ is_Some (GetShardInfo (AddShardInfo lgr pool shardID).1 !! id))
     ∧ (faulty lgr OpSaveAllShardIDs = true → (AddShardInfo lgr pool shardID).2 = lgr)).
Proof.
  unfold GetShardInfo, AddShardInfo. split.
  - intros [b Hb]. by rewrite Hb.
  - intros Hnew. rewrite Hnew. simpl. split; [done|]. split; [done|].
    unfold SaveAllShardIDs. split.
    + intros Hok. rewrite Hok. simpl.
      exists (map_to_list (<[shardID := true]> (ShardInfo pool))).*1.
      split; [done|]. split; [apply NoDup_fst_map_to_list|].
      intros id. rewrite list_elem_of_fmap. split.
      * intros ([id' b] & -> & Hin). apply elem_of_map_to_list in Hin.
        simpl. by rewrite Hin.
      * intros [b Hb]. exists (id, b). split; [done|]. by apply elem_of_map_to_list.
    + intros Hbad. by rewrite Hbad.
Qed.

Lemma Shards_putMsg_ensureShard pool (id : Z) (key : Z) msg :
  Shards (putMsg (ensureShard pool id) id key msg) =
    <[id := <[key := msg]> (shardMsgsOf pool id)]> (Shards pool).
Proof.
  unfold putMsg. simpl. rewrite shardMsgsOf_ensureShard.
  unfold ensureShard. destruct (Shards pool !! id); [done|].
  simpl. by rewrite insert_insert_eq.
Qed.

(** One call on a store without faults, for a key that is free. *)
Lemma AddCrossShardInfo_noFault lgr pool msg :
  noFault lgr →
  shardMsgsOf pool (From msg) !! Pre msg = None →
  (AddCrossShardInfo lgr pool msg).1 = None
  ∧ Shards (AddCrossShardInfo lgr pool msg).2.1 =
      <[From msg := <[Pre msg := msg]> (shardMsgsOf pool (From msg))]> (Shards pool)
  ∧ ShardInfo (AddCrossShardInfo lgr pool msg).2.1 =
      match ShardInfo pool !! From msg with
      | Some _ => ShardInfo pool
      | None => <[From msg := true]> (ShardInfo pool)
      end
  ∧ crossShardMsgs (AddCrossShardInfo lgr pool msg).2.2 =
      <[Pre msg := msg]> (crossShardMsgs lgr)
  ∧ crossShardHash (AddCrossShardInfo lgr pool msg).2.2 =
      match crossShardHash lgr !! From msg with
      | Some _ => crossShardHash lgr
      | None => <[From msg := Pre msg]> (crossShardHash lgr)
      end
  ∧ allShardIDs (AddCrossShardInfo lgr pool msg).2.2 =
      match ShardInfo pool !! From msg with
      | Some _ => allShardIDs lgr
      | None => Some (map_to_list (<[From msg := true]> (ShardInfo pool))).*1
      end
  ∧ faulty (AddCrossShardInfo lgr pool msg).2.2 = faulty lgr
  ∧ ParentLedger (AddCrossShardInfo lgr pool msg).2.2 = ParentLedger lgr.
Proof.
  intros Hnf Hfresh. unfold AddCrossShardInfo, ToUint64.
  rewrite shardMsgsOf_ensureShard, Hfresh.
  unfold SaveCrossShardMsgByHash. rewrite (Hnf _).
  unfold GetCrossShardHashByShardID, GetCrossShardHash. simpl. rewrite (Hnf _).
  unfold AddShardInfo.
  rewrite ShardInfo_putMsg, ShardInfo_ensureShard.
  pose proof (Shards_putMsg_ensureShard pool (From msg) (Pre msg) msg) as HS.
  pose proof (ShardInfo_ensureShard pool (From msg)) as HI.
  unfold putMsg in HS. simpl in HS.
  destruct (crossShardHash lgr !! From msg) as [h|] eqn:Hptr.
  - destruct (ShardInfo pool !! From msg) as [b|] eqn:Hknown; simpl.
    + by rewrite HS, ?HI.
    + unfold SaveAllShardIDs. simpl. rewrite (Hnf _). simpl. by rewrite HS, ?HI.
  - unfold SaveCrossShardHash, LedgerSaveCrossShardHash. simpl. rewrite (Hnf _).
    destruct (ShardInfo pool !! From msg) as [b|] eqn:Hknown; simpl.
    + by rewrite HS, ?HI.
    + unfold SaveAllShardIDs. simpl. rewrite (Hnf _). simpl. by rewrite HS, ?HI.
Qed.

(** X6. On a store without faults, a message whose key is free is
    ingested in full: the call returns [nil], the message can be read
    back from the shard's map and from the store under its
    [PreCrossShardMsgHash], the shard's persisted hash is the one it had,
    or this key if it had none, the source shard is known, and the other
    stored messages are as before. *)
Theorem AddCrossShardInfo_stores_message lgr pool msg :
  noFault lgr →
  shardMsgsOf pool (From msg) !! Pre msg = None →
  (AddCrossShardInfo lgr pool msg).1 = None
  ∧ shardMsgsOf (AddCrossShardInfo lgr pool msg).2.1 (From msg) !! Pre msg = Some msg
  ∧ GetCrossShardMsgByHash (AddCrossShardInfo lgr pool msg).2.2 (Pre msg) = Found msg
  ∧ GetCrossShardHashByShardID (AddCrossShardInfo lgr pool msg).2.2 (From msg) =
      Found (default (Pre msg) (crossShardHash lgr !! From msg))
  ∧ is_Some (GetShardInfo (AddCrossShardInfo lgr pool msg).2.1 !! From msg)
  ∧ (∀ key, key ≠ Pre msg →
       GetCrossShardMsgByHash (AddCrossShardInfo lgr pool msg).2.2 key =
         GetCrossShardMsgByHash lgr key).
Proof.
  intros Hnf Hfresh.
  destruct (AddCrossShardInfo_noFault lgr pool msg Hnf Hfresh)
    as (Herr & Hshards & Hinfo & Hmsgs & Hhash & _ & Hfaulty & _).
  split; [done|]. split.
  { rewrite shardMsgsOf_AddCrossShardInfo, decide_True by done.
    rewrite Hfresh. apply lookup_insert_eq. }
  unfold GetCrossShardMsgByHash, GetCrossShardHashByShardID, GetCrossShardHash, GetShardInfo.
  rewrite Hfaulty, Hmsgs, Hhash, Hinfo. rewrite !(Hnf _).
  split; [by rewrite lookup_insert_eq|]. split.
  { destruct (crossShardHash lgr !! From msg) as [h|] eqn:Hptr; simpl.
    - by rewrite Hptr.
    - by rewrite lookup_insert_eq. }
  split.
  { destruct (ShardInfo pool !! From msg) as [b|] eqn:Hknown.
    - by rewrite Hknown.
    - rewrite lookup_insert_eq. by eexists. }
  intros key Hne. rewrite (Hnf _). by rewrite lookup_insert_ne.
Qed.

(** X7. Whenever [AddCrossShardInfo] returns an error, the error is one
    of the three store errors of the call, the message is in the shard's
    map all the same, and the source shard has not been marked: the known
    shards and the stored shard ids are as before. *)
Theorem AddCrossShardInfo_error_paths lgr pool msg err pool' lgr' :
  AddCrossShardInfo lgr pool msg = (Some err, (pool', lgr')) →
  (err = ErrSaveCrossShardMsg (From msg) (Pre msg)
   ∨ err = ErrAddGetCrossShardHash (From msg)
   ∨ err = ErrAddSaveCrossShardHash (From msg))
  ∧ shardMsgsOf pool' (From msg) !! Pre msg = Some msg
  ∧ GetShardInfo pool' = GetShardInfo pool
  ∧ allShardIDs lgr' = allShardIDs lgr.
Proof.
  unfold AddCrossShardInfo, ToUint64, GetShardInfo.
  rewrite shardMsgsOf_ensureShard.
  destruct (shardMsgsOf pool (From msg) !! Pre msg) as [old|] eqn:Hold; [done|].
  set (pool2 := putMsg (ensureShard pool (From msg)) (From msg) (Pre msg) msg).
  assert (Hin : shardMsgsOf pool2 (From msg) !! Pre msg = Some msg).
  { unfold pool2. rewrite shardMsgsOf_putMsg, decide_True by done. apply lookup_insert_eq. }
  assert (Hinfo : ShardInfo pool2 = ShardInfo pool).
  { unfold pool2. rewrite ShardInfo_putMsg. apply ShardInfo_ensureShard. }
  unfold SaveCrossShardMsgByHash.
  destruct (faulty lgr (OpSaveCrossShardMsgByHash (Pre msg))).
  { intros [= <- <- <-]. repeat split; auto. }
  set (lgr1 := {| allShardIDs := allShardIDs lgr |}).
  destruct (GetCrossShardHashByShardID lgr1 (From msg)) as [h| |].
  - destruct (AddShardInfo lgr1 pool2 (From msg)); done.
  - unfold SaveCrossShardHash, LedgerSaveCrossShardHash.
    destruct (faulty lgr1 (OpSaveCrossShardHash (From msg))).
    + intros [= <- <- <-]. repeat split; auto.
    + destruct (AddShardInfo _ pool2 (From msg)); done.
  - intros [= <- <- <-]. repeat split; auto.
Qed.

Lemma crossShardHash_AddCrossShardInfo lgr pool msg (shardID : Z) (msgHash : Z) :
  crossShardHash lgr !! shardID = Some msgHash →
  crossShardHash (AddCrossShardInfo lgr pool msg).2.2 !! shardID = Some msgHash.
Proof.
  intros Hptr. unfold AddCrossShardInfo, ToUint64.
  destruct (shardMsgsOf _ (From msg) !! Pre msg); [done|].
  unfold SaveCrossShardMsgByHash.
  destruct (faulty lgr (OpSaveCrossShardMsgByHash (Pre msg))); [done|].
  assert (Hids : ∀ (l : Ledger (Payload := Payload)) p,
            crossShardHash (AddShardInfo l p (From msg)).2 = crossShardHash l).
  { intros l p. unfold AddShardInfo. destruct (ShardInfo p !! From msg); [done|].
    simpl. unfold SaveAllShardIDs. by destruct (faulty l OpSaveAllShardIDs). }
  unfold GetCrossShardHashByShardID, GetCrossShardHash. simpl.
  destruct (faulty lgr (OpGetCrossShardHash (From msg))); [done|].
  destruct (crossShardHash lgr !! From msg) as [h|] eqn:Hfrom; simpl.
  - by rewrite Hids.
  - unfold SaveCrossShardHash, LedgerSaveCrossShardHash. simpl.
    destruct (faulty lgr (OpSaveCrossShardHash (From msg))); [done|]. simpl.
    rewrite Hids. simpl. rewrite lookup_insert_ne; [done|]. congruence.
Qed.

(** X8. Ingestion never moves a persisted hash: a shard that has one
    keeps it through any run of [AddCrossShardInfo] calls, whatever the
    messages and whatever the store answers. *)
Theorem AddCrossShardInfo_keeps_persisted_hash msgs :
  ∀ lgr pool (shardID : Z) (msgHash : Z),
    crossShardHash lgr !! shardID = Some msgHash →
    crossShardHash (AddCrossShardInfos lgr pool msgs).2 !! shardID = Some msgHash.
Proof.
  induction msgs as [|msg rest IH]; intros lgr pool shardID msgHash Hptr; [done|].
  simpl. apply IH. by apply crossShardHash_AddCrossShardInfo.
Qed.

End IngestionInvariants.

(** ** The invariant of the per-shard maps *)

Section KeyInvariant.

Context {Payload Transaction : Type}.

Implicit Types (pool : CrossShardPool (Payload := Payload)).
Implicit Types (lgr : Ledger (Payload := Payload)).
Implicit Types (order : list (Z * list (CrossShardTxInfos (Transaction := Transaction)))).

(** X9. The per-shard maps are keyed by [PreCrossShardMsgHash]: that
    holds of the pool [InitCrossShardPool] makes, and [AddCrossShardInfo],
    [InitShardInfo] (whatever it returns) and [DelCrossShardTxs] each
    keep it. *)
Theorem keyedByPre_kept :
  (∀ shardID historyCap, keyedByPre (Payload := Payload) (InitCrossShardPool shardID historyCap))
  ∧ ∀ lgr pool,
      keyedByPre pool →
      (∀ msg, keyedByPre (AddCrossShardInfo lgr pool msg).2.1)
      ∧ (∀ fuel err pool', InitShardInfo fuel lgr pool = Returned err pool' → keyedByPre pool')
      ∧ (∀ order, keyedByPre (DelCrossShardTxs lgr pool order).2.1).
Proof.
  split.
  - intros shardID historyCap id key msg. unfold shardMsgsOf. simpl.
    rewrite lookup_empty. simpl. by rewrite lookup_empty.
  - intros lgr pool Hk. split; [|split].
    + intros msg id key msg' Hlk. rewrite shardMsgsOf_AddCrossShardInfo in Hlk.
      case_decide as Hid; [|by apply (Hk id)]. subst id.
      destruct (shardMsgsOf pool (From msg) !! Pre msg) eqn:Hold; [by apply (Hk (From msg))|].
      destruct (decide (Pre msg = key)) as [<-|Hne].
      * rewrite lookup_insert_eq in Hlk. by injection Hlk as <-.
      * rewrite lookup_insert_ne in Hlk by done. by apply (Hk (From msg)).
    + intros fuel err pool'. unfold InitShardInfo.
      destruct (GetAllShardIDs lgr) as [shardIds| |]; intros Hrun.
      * apply initShards_grows in Hrun as (_ & _ & _ & Hkept). by apply Hkept.
      * apply initShards_grows in Hrun as (_ & _ & _ & Hkept). by apply Hkept.
      * by injection Hrun as <- <-.
    + intros order id key msg Hlk.
      apply DelCrossShardTxs_only_evicts_frame in Hlk. by apply (Hk id).
Qed.

End KeyInvariant.

(** ** A linked chain, from ingestion to recovery, collection and eviction *)

Section LinkedChain.

Context {Payload Transaction Account : Type}.
Context {ext : External Payload Transaction Account}.

Implicit Types (pool : CrossShardPool (Payload := Payload)).
Implicit Types (lgr : Ledger (Payload := Payload)).
Implicit Types (msg : CrossShardMsg (Payload := Payload)).
Implicit Types (msgs : list (CrossShardMsg (Payload := Payload))).
Implicit Types (shardMsgs : gmap Z (CrossShardMsg (Payload := Payload))).

Lemma entriesOf_keys msgs :
  ((λ msg, (Pre msg, msg)) <$> msgs).*1 = Pre <$> msgs.
Proof. rewrite <- list_fmap_compose. done. Qed.

Lemma entriesOf_lookup_in msgs msg :
  NoDup (Pre <$> msgs) → msg ∈ msgs → entriesOf msgs !! Pre msg = Some msg.
Proof.
  intros Hnodup Hin. unfold entriesOf. apply elem_of_list_to_map_1.
  - by rewrite entriesOf_keys.
  - apply list_elem_of_fmap. by exists msg.
Qed.

Lemma entriesOf_lookup_notin msgs (key : Z) :
  key ∉ Pre <$> msgs → entriesOf msgs !! key = None.
Proof.
  intros Hnotin. unfold entriesOf. apply not_elem_of_list_to_map_1.
  by rewrite entriesOf_keys.
Qed.

Lemma entriesOf_lookup_Some msgs (key : Z) msg :
  entriesOf msgs !! key = Some msg → msg ∈ msgs ∧ Pre msg = key.
Proof.
  unfold entriesOf. intros Hlk. apply elem_of_list_to_map_2 in Hlk.
  apply list_elem_of_fmap in Hlk as (msg' & [= -> ->] & Hin). done.
Qed.

Lemma linkedFrom_Pre_in (shardID : Z) msgs :
  ∀ (msgHash : Z),
    linkedFrom shardID msgHash msgs →
    ∀ msg, msg ∈ msgs → From msg = shardID ∧ Pre msg ∈ msgHash :: (Root <$> msgs).
Proof.
  induction msgs as [|m rest IH]; intros msgHash Hlinked msg Hin.
  - by apply elem_of_nil in Hin.
  - destruct Hlinked as (Hfrom & Hpre & Hrest).
    apply elem_of_cons in Hin as [->|Hin].
    + split; [done|]. rewrite Hpre. by left.
    + destruct (IH _ Hrest msg Hin) as [Hf Hp]. split; [done|]. by right.
Qed.

Lemma linkedFrom_NoDup_Pre (shardID : Z) msgs :
  ∀ (msgHash : Z),
    linkedFrom shardID msgHash msgs →
    NoDup (msgHash :: (Root <$> msgs)) →
    NoDup (Pre <$> msgs).
Proof.
  induction msgs as [|m rest IH]; intros msgHash Hlinked Hnodup; [constructor|].
  destruct Hlinked as (Hfrom & Hpre & Hrest).
  apply NoDup_cons in Hnodup as [Hfresh Hnodup]. rewrite fmap_cons in Hnodup.
  rewrite fmap_cons. apply NoDup_cons. split; [|by apply (IH (Root m))].
  rewrite Hpre. intros Hin. apply Hfresh.
  apply list_elem_of_fmap in Hin as (msg & -> & Hin).
  by destruct (linkedFrom_Pre_in shardID rest _ Hrest msg Hin) as [_ Hp].
Qed.

(** The store side of a linked chain: what [InitShardInfo] walks. *)
Lemma rootChain_of_linked lgr (shardID : Z) msgs :
  ∀ (msgHash : Z),
    linkedFrom shardID msgHash msgs →
    NoDup (msgHash :: (Root <$> msgs)) →
    (∀ msg, msg ∈ msgs → GetCrossShardMsgByHash lgr (Pre msg) = Found msg) →
    (∀ key, key ∈ msgHash :: (Root <$> msgs) → key ∉ Pre <$> msgs →
            GetCrossShardMsgByHash lgr key = ErrNotFound) →
    rootChain lgr msgHash msgs.
Proof.
  induction msgs as [|m rest IH]; intros msgHash Hlinked Hnodup Hfound Hend.
  - apply rootChain_end. apply Hend; [by left|]. apply not_elem_of_nil.
  - destruct Hlinked as (Hfrom & Hpre & Hrest).
    apply NoDup_cons in Hnodup as [Hfresh Hnodup]. rewrite fmap_cons in Hfresh, Hnodup.
    apply rootChain_next.
    + rewrite <- Hpre. apply Hfound. by left.
    + apply IH; [done|done| |].
      * intros msg Hin. apply Hfound. by right.
      * intros key Hin Hnotin. apply Hend; [by right|].
        rewrite fmap_cons. apply not_elem_of_cons. split; [|done].
        rewrite Hpre. intros ->. done.
Qed.

(** The pool side of a linked chain: what [GetCrossShardTxs] walks. *)
Lemma pendingChain_of_linked lgr shardMsgs (shardID : Z) msgs :
  ∀ (msgHash : Z),
    linkedFrom shardID msgHash msgs →
    NoDup (msgHash :: (Root <$> msgs)) →
    (∀ msg, msg ∈ msgs → shardMsgs !! Pre msg = Some msg) →
    (∀ key, key ∈ msgHash :: (Root <$> msgs) → key ∉ Pre <$> msgs →
            shardMsgs !! key = None ∧ GetCrossShardMsgByHash lgr key = ErrNotFound) →
    pendingChain lgr shardMsgs msgHash msgs.
Proof.
  induction msgs as [|m rest IH]; intros msgHash Hlinked Hnodup Hfound Hend.
  - destruct (Hend msgHash) as [Hmem Hstore]; [by left|apply not_elem_of_nil|].
    by apply pendingChain_end.
  - destruct Hlinked as (Hfrom & Hpre & Hrest).
    apply NoDup_cons in Hnodup as [Hfresh Hnodup]. rewrite fmap_cons in Hfresh, Hnodup.
    apply pendingChain_pool.
    + rewrite <- Hpre. apply Hfound. by left.
    + apply IH; [done|done| |].
      * intros msg Hin. apply Hfound. by right.
      * intros key Hin Hnotin. apply Hend; [by right|].
        rewrite fmap_cons. apply not_elem_of_cons. split; [|done].
        rewrite Hpre. intros ->. done.
Qed.

(** A run of calls for a shard that already has its map, its persisted
    hash and its mark, on a store without faults. *)
Lemma AddCrossShardInfos_known msgs :
  ∀ lgr pool (shardID : Z) shardMsgs (msgHash : Z),
    noFault lgr →
    Shards pool !! shardID = Some shardMsgs →
    crossShardHash lgr !! shardID = Some msgHash →
    is_Some (ShardInfo pool !! shardID) →
    (∀ msg, msg ∈ msgs → From msg = shardID) →
    NoDup (Pre <$> msgs) →
    (∀ msg, msg ∈ msgs → shardMsgs !! Pre msg = None) →
    Shards (AddCrossShardInfos lgr pool msgs).1 =
      <[shardID := entriesOf msgs ∪ shardMsgs]> (Shards pool)
    ∧ ShardInfo (AddCrossShardInfos lgr pool msgs).1 = ShardInfo pool
    ∧ crossShardMsgs (AddCrossShardInfos lgr pool msgs).2 = entriesOf msgs ∪ crossShardMsgs lgr
    ∧ crossShardHash (AddCrossShardInfos lgr pool msgs).2 = crossShardHash lgr
    ∧ allShardIDs (AddCrossShardInfos lgr pool msgs).2 = allShardIDs lgr
    ∧ faulty (AddCrossShardInfos lgr pool msgs).2 = faulty lgr
    ∧ ParentLedger (AddCrossShardInfos lgr pool msgs).2 = ParentLedger lgr.
Proof.
  induction msgs as [|m rest IH];
    intros lgr pool shardID shardMsgs msgHash Hnf Hmap Hptr Hknown Hfrom Hnodup Hfresh.
  - simpl. unfold entriesOf. simpl. rewrite !(left_id_L ∅ (∪)).
    by rewrite insert_id.
  - rewrite fmap_cons in Hnodup. apply NoDup_cons in Hnodup as [Hfirst Hnodup].
    assert (Hm : From m = shardID) by (apply Hfrom; by left).
    assert (Hof : shardMsgsOf pool shardID = shardMsgs).
    { unfold shardMsgsOf. by rewrite Hmap. }
    destruct (AddCrossShardInfo_noFault lgr pool m Hnf)
      as (_ & Hshards & Hinfo & Hmsgs & Hhash & Hids & Hfaulty & Hparent).
    { rewrite Hm, Hof. apply Hfresh. by left. }
    rewrite Hm in Hshards, Hinfo, Hhash, Hids. rewrite Hof in Hshards.
    rewrite Hptr in Hhash. destruct Hknown as [b Hb]. rewrite Hb in Hinfo, Hids.
    simpl.
    set (pool1 := (AddCrossShardInfo lgr pool m).2.1) in *.
    set (lgr1 := (AddCrossShardInfo lgr pool m).2.2) in *.
    destruct (IH lgr1 pool1 shardID (<[Pre m := m]> shardMsgs) msgHash)
      as (Rshards & Rinfo & Rmsgs & Rhash & Rids & Rfaulty & Rparent).
    + intros op. rewrite Hfaulty. apply Hnf.
    + rewrite Hshards. apply lookup_insert_eq.
    + by rewrite Hhash.
    + rewrite Hinfo, Hb. by eexists.
    + intros msg Hin. apply Hfrom. by right.
    + done.
    + intros msg Hin. rewrite lookup_insert_ne; [apply Hfresh; by right|].
      intros Heq. apply Hfirst. rewrite Heq. by apply list_elem_of_fmap_2.
    + assert (Hnone : entriesOf rest !! Pre m = None) by by apply entriesOf_lookup_notin.
      assert (Hcons : ∀ base : gmap Z CrossShardMsg,
                 entriesOf (m :: rest) ∪ base = entriesOf rest ∪ <[Pre m := m]> base).
      { intros base.
        change (entriesOf (m :: rest)) with (<[Pre m := m]> (entriesOf rest)).
        rewrite <- insert_union_l. by rewrite insert_union_r. }
      rewrite Rshards, Rinfo, Rmsgs, Rhash, Rids, Rfaulty, Rparent.
      rewrite Hshards, Hinfo, Hmsgs, Hhash, Hids, Hfaulty, Hparent.
      rewrite insert_insert_eq, !Hcons. done.
Qed.

(** A linked chain ingested into a fresh pool over a fresh store. *)
Lemma AddCrossShardInfos_fresh parent (local cap : Z) (shardID msgHash : Z) msgs :
  linkedFrom shardID msgHash msgs →
  msgs ≠ [] →
  NoDup (msgHash :: (Root <$> msgs)) →
  Shards (AddCrossShardInfos (freshLedger parent) (InitCrossShardPool local cap) msgs).1 =
    {[shardID := entriesOf msgs]}
  ∧ ShardInfo (AddCrossShardInfos (freshLedger parent) (InitCrossShardPool local cap) msgs).1 =
      {[shardID := true]}
  ∧ crossShardMsgs (AddCrossShardInfos (freshLedger parent) (InitCrossShardPool local cap) msgs).2 =
      entriesOf msgs
  ∧ crossShardHash (AddCrossShardInfos (freshLedger parent) (InitCrossShardPool local cap) msgs).2 =
      {[shardID := msgHash]}
  ∧ allShardIDs (AddCrossShardInfos (freshLedger parent) (InitCrossShardPool local cap) msgs).2 =
      Some [shardID]
  ∧ noFault (AddCrossShardInfos (freshLedger parent) (InitCrossShardPool local cap) msgs).2
  ∧ ParentLedger (AddCrossShardInfos (freshLedger parent) (InitCrossShardPool local cap) msgs).2 =
      parent.
Proof.
  intros Hlinked Hne Hnodup.
  pose proof (linkedFrom_NoDup_Pre shardID msgs msgHash Hlinked Hnodup) as Hpres.
  destruct msgs as [|m rest]; [done|]. clear Hne.
  pose proof Hlinked as (Hfrom & Hpre & Hrest).
  rewrite fmap_cons in Hpres. apply NoDup_cons in Hpres as [Hfirst Hpres].
  set (lgr0 := freshLedger parent). set (pool0 := InitCrossShardPool local cap).
  assert (Hnf0 : noFault lgr0) by done.
  destruct (AddCrossShardInfo_noFault lgr0 pool0 m Hnf0)
    as (_ & Hshards & Hinfo & Hmsgs & Hhash & Hids & Hfaulty & Hparent).
  { unfold shardMsgsOf, pool0. simpl. rewrite lookup_empty. simpl. apply lookup_empty. }
  rewrite Hfrom, Hpre in *.
  assert (Hof0 : shardMsgsOf pool0 shardID = ∅).
  { unfold shardMsgsOf, pool0. simpl. by rewrite lookup_empty. }
  rewrite Hof0 in Hshards.
  assert (E1 : ShardInfo pool0 = ∅) by done.
  assert (E2 : Shards pool0 = ∅) by done.
  assert (E3 : crossShardHash lgr0 = ∅) by done.
  assert (E4 : crossShardMsgs lgr0 = ∅) by done.
  rewrite E1 in Hinfo, Hids. rewrite E2 in Hshards. rewrite E3 in Hhash. rewrite E4 in Hmsgs.
  rewrite lookup_empty in Hinfo. rewrite lookup_empty in Hhash.
  rewrite lookup_empty in Hids.
  rewrite !insert_empty in Hshards. rewrite insert_empty in Hinfo.
  rewrite insert_empty in Hmsgs. rewrite insert_empty in Hhash.
  rewrite insert_empty in Hids.
  rewrite map_to_list_singleton in Hids. simpl in Hids.
  simpl.
  set (pool1 := (AddCrossShardInfo lgr0 pool0 m).2.1) in *.
  set (lgr1 := (AddCrossShardInfo lgr0 pool0 m).2.2) in *.
  destruct (AddCrossShardInfos_known rest lgr1 pool1 shardID {[msgHash := m]} msgHash)
    as (Rshards & Rinfo & Rmsgs & Rhash & Rids & Rfaulty & Rparent).
  - intros op. by rewrite Hfaulty.
  - rewrite Hshards. apply lookup_singleton_eq.
  - rewrite Hhash. apply lookup_singleton_eq.
  - rewrite Hinfo, lookup_singleton_eq. by eexists.
  - intros msg Hin. by destruct (linkedFrom_Pre_in shardID rest _ Hrest msg Hin).
  - done.
  - intros msg Hin. rewrite lookup_singleton_ne; [done|].
    intros Heq. apply Hfirst. rewrite Heq. by apply list_elem_of_fmap_2.
  - assert (Hnone : entriesOf rest !! msgHash = None).
    { by apply entriesOf_lookup_notin. }
    assert (Hall : entriesOf (m :: rest) = entriesOf rest ∪ {[msgHash := m]}).
    { change (entriesOf (m :: rest)) with (<[Pre m := m]> (entriesOf rest)).
      rewrite Hpre. rewrite <- insert_empty, <- insert_union_r by done.
      by rewrite (right_id_L ∅ (∪)). }
    rewrite Rshards, Rinfo, Rmsgs, Rhash, Rids, Rparent.
    rewrite Hshards, Hinfo, Hmsgs, Hhash, Hids, Hparent, Hall.
    rewrite insert_singleton_eq.
    repeat split; try done.
    intros op. by rewrite Rfaulty, Hfaulty.
Qed.

Lemma recoverWalk_Shards_other lgr (shardId : Z) fuel :
  ∀ (msgHash : Z) pool err pool',
    recoverWalk fuel lgr shardId msgHash pool = Returned err pool' →
    ∀ id, id ≠ shardId → Shards pool' !! id = Shards pool !! id.
Proof.
  induction fuel as [|fuel IH]; intros msgHash pool err pool' Hrun id Hne; [done|].
  simpl in Hrun. unfold recoverStep, ToUint64 in Hrun.
  assert (Hens : Shards (ensureShard pool shardId) !! id = Shards pool !! id).
  { unfold ensureShard. destruct (Shards pool !! shardId); [done|].
    simpl. by rewrite lookup_insert_ne. }
  destruct (GetCrossShardMsgByHash lgr msgHash) as [msg| |].
  - destruct (shardMsgsOf (ensureShard pool shardId) shardId !! Pre msg).
    + rewrite (IH _ _ _ _ Hrun id Hne). done.
    + rewrite (IH _ _ _ _ Hrun id Hne). unfold putMsg. simpl.
      by rewrite lookup_insert_ne.
  - by injection Hrun as <- <-.
  - by injection Hrun as <- <-.
Qed.

(** X10. Recovery undoes a restart: after a linked chain of messages of
    one shard, with no hash met twice, has been ingested into a fresh
    pool over a fresh store without faults, [InitShardInfo] run with
    enough fuel on that store and another fresh pool returns [nil] with
    the same per-shard maps and the same known shards as the pool that
    ingested them. *)
Theorem ingest_then_InitShardInfo
    parent (local cap local' cap' : Z) (shardID msgHash : Z) msgs fuel :
  linkedFrom shardID msgHash msgs →
  msgs ≠ [] →
  NoDup (msgHash :: (Root <$> msgs)) →
  (length msgs < fuel)%nat →
  ∃ pool',
    InitShardInfo fuel
      (AddCrossShardInfos (freshLedger parent) (InitCrossShardPool local cap) msgs).2
      (InitCrossShardPool local' cap') = Returned None pool'
    ∧ Shards pool' =
        Shards (AddCrossShardInfos (freshLedger parent) (InitCrossShardPool local cap) msgs).1
    ∧ GetShardInfo pool' =
        GetShardInfo (AddCrossShardInfos (freshLedger parent) (InitCrossShardPool local cap) msgs).1.
Proof.
  intros Hlinked Hne Hnodup Hfuel.
  destruct (AddCrossShardInfos_fresh parent local cap shardID msgHash msgs Hlinked Hne Hnodup)
    as (Hshards & Hinfo & Hmsgs & Hhash & Hids & Hnf & _).
  pose proof (linkedFrom_NoDup_Pre shardID msgs msgHash Hlinked Hnodup) as Hpres.
  set (lgr' := (AddCrossShardInfos _ _ msgs).2) in *.
  unfold GetShardInfo. rewrite Hshards, Hinfo.
  set (pool1 := set_ShardInfo (InitCrossShardPool (Payload := Payload) local' cap')
                  (<[shardID := true]> ∅)).
  assert (Hchain : rootChain lgr' msgHash msgs).
  { apply (rootChain_of_linked lgr' shardID); [done|done| |].
    - intros msg Hin. unfold GetCrossShardMsgByHash. rewrite (Hnf _), Hmsgs.
      by rewrite entriesOf_lookup_in.
    - intros key _ Hnotin. unfold GetCrossShardMsgByHash. rewrite (Hnf _), Hmsgs.
      by rewrite entriesOf_lookup_notin. }
  destruct (recoverWalk_rootChain lgr' shardID msgs msgHash pool1 Hchain Hpres)
    as (pool' & Hrun & Hentries & _ & Hinfo').
  { intros msg _. unfold shardMsgsOf, pool1. simpl. rewrite lookup_empty. simpl.
    apply lookup_empty. }
  exists pool'. split; [|split].
  - unfold InitShardInfo, GetAllShardIDs. rewrite (Hnf _), Hids.
    unfold initShards. unfold GetCrossShardHashByShardID, GetCrossShardHash.
    rewrite (Hnf _), Hhash, lookup_singleton_eq.
    change (set_ShardInfo (InitCrossShardPool local' cap')
              (<[shardID := true]> (ShardInfo (InitCrossShardPool local' cap')))) with pool1.
    by rewrite (recoverWalk_fuel_mono _ _ _ fuel _ _ _ _ Hfuel Hrun).
  - assert (Hmap : shardMsgsOf pool' shardID = entriesOf msgs).
    { apply map_eq. intros key. apply option_eq. intros msg. rewrite Hentries. split.
      - intros [[Hin <-]|Hold]; [by apply entriesOf_lookup_in|].
        unfold shardMsgsOf, pool1 in Hold. simpl in Hold.
        rewrite lookup_empty in Hold. simpl in Hold. by rewrite lookup_empty in Hold.
      - intros Hlk. left. by apply entriesOf_lookup_Some. }
    apply map_eq. intros id. destruct (decide (id = shardID)) as [->|Hid].
    + rewrite lookup_singleton_eq.
      destruct msgs as [|m rest]; [done|].
      assert (Hsome : is_Some (Shards pool' !! shardID)).
      { apply (shardMsgsOf_is_Some pool' shardID (Pre m)). rewrite Hmap.
        rewrite entriesOf_lookup_in; [by eexists|done|by left]. }
      destruct Hsome as [M HM]. rewrite HM. f_equal.
      unfold shardMsgsOf in Hmap. by rewrite HM in Hmap.
    + rewrite lookup_singleton_ne by done.
      rewrite (recoverWalk_Shards_other _ _ _ _ _ _ _ Hrun id Hid).
      unfold pool1. simpl. apply lookup_empty.
  - rewrite Hinfo'. unfold pool1. simpl. apply insert_empty.
Qed.

Lemma buildTxInfos_all (account : Account) (consumer : Z) msgs :
  (∀ msg, msg ∈ msgs →
     is_Some (NewCrossShardTxMsg account (MsgHeight (CrossShardMsgInfo_ msg)) consumer
                GasPrice GasLimit (ShardMsg msg))) →
  ∀ acc,
    ∃ batch,
      buildTxInfos account consumer msgs acc = acc ++ batch
      ∧ Forall2 (λ shardTx msg,
                   TxShardMsg shardTx = CrossShardMsgInfo_ msg
                   ∧ NewCrossShardTxMsg account (MsgHeight (CrossShardMsgInfo_ msg)) consumer
                       GasPrice GasLimit (ShardMsg msg) = Some (Tx shardTx))
          batch msgs.
Proof.
  induction msgs as [|msg rest IH]; intros Hbuilt acc.
  - exists []. simpl. by rewrite app_nil_r.
  - destruct (Hbuilt msg ltac:(by left)) as [tx Htx].
    destruct (IH (λ m Hin, Hbuilt m ltac:(by right))
                (acc ++ [ {| TxShardMsg := CrossShardMsgInfo_ msg; Tx := tx |} ]))
      as (batch & Hrun & Hall).
    exists ({| TxShardMsg := CrossShardMsgInfo_ msg; Tx := tx |} :: batch).
    simpl. rewrite Htx, Hrun. split; [by rewrite <- app_assoc|].
    by apply Forall2_cons.
Qed.

(** The call of [GetCrossShardTxs] the next two properties are about. *)
Lemma GetCrossShardTxs_linked
    parent (local cap : Z) (shardID msgHash : Z) msgs fuel
    (account : Account) (consumer : Z) (parentblkNum : Z) :
  linkedFrom shardID msgHash msgs →
  msgs ≠ [] →
  NoDup (msgHash :: (Root <$> msgs)) →
  (length msgs < fuel)%nat →
  IsRootShard consumer = true →
  NewShardID shardID = Some shardID →
  (∀ msg, msg ∈ msgs →
     is_Some (NewCrossShardTxMsg account (MsgHeight (CrossShardMsgInfo_ msg)) consumer
                GasPrice GasLimit (ShardMsg msg))) →
  ∃ batch,
    GetCrossShardTxs fuel
      (AddCrossShardInfos (freshLedger parent) (InitCrossShardPool local cap) msgs).2
      (AddCrossShardInfos (freshLedger parent) (InitCrossShardPool local cap) msgs).1
      account consumer parentblkNum = Returned None (Some {[shardID := batch]})
    ∧ Forall2 (λ shardTx msg,
                 TxShardMsg shardTx = CrossShardMsgInfo_ msg
                 ∧ NewCrossShardTxMsg account (MsgHeight (CrossShardMsgInfo_ msg)) consumer
                     GasPrice GasLimit (ShardMsg msg) = Some (Tx shardTx))
        batch msgs.
Proof.
  intros Hlinked Hne Hnodup Hfuel Hroot Hvalid Hbuilt.
  destruct (AddCrossShardInfos_fresh parent local cap shardID msgHash msgs Hlinked Hne Hnodup)
    as (Hshards & _ & Hmsgs & Hhash & _ & Hnf & _).
  pose proof (linkedFrom_NoDup_Pre shardID msgs msgHash Hlinked Hnodup) as Hpres.
  set (lgr' := (AddCrossShardInfos _ _ msgs).2) in *.
  set (pool' := (AddCrossShardInfos _ _ msgs).1) in *.
  assert (Hchain : pendingChain lgr' (entriesOf msgs) msgHash msgs).
  { apply (pendingChain_of_linked lgr' _ shardID); [done|done| |].
    - intros msg Hin. by apply entriesOf_lookup_in.
    - intros key _ Hnotin. split; [by apply entriesOf_lookup_notin|].
      unfold GetCrossShardMsgByHash. rewrite (Hnf _), Hmsgs.
      by rewrite entriesOf_lookup_notin. }
  destruct (buildTxInfos_all account consumer msgs Hbuilt []) as (batch & Hbatch & Hall).
  exists batch. split; [|done].
  unfold GetCrossShardTxs. rewrite Hroot. simpl negb. cbv iota.
  rewrite Hshards, map_to_list_singleton.
  unfold collectShards. rewrite Hvalid.
  unfold GetCrossShardHashByShardID, GetCrossShardHash.
  rewrite (Hnf _), Hhash, lookup_singleton_eq.
  rewrite (collectWalk_pendingChain _ _ _ _ Hchain fuel [] Hfuel).
  simpl app. rewrite Hbatch. simpl app. by rewrite insert_empty.
Qed.

(** X11. What goes in comes out in order: after a linked chain of
    messages of one shard, with no hash met twice, has been ingested into
    a fresh pool over a fresh store, [GetCrossShardTxs] for a root
    consumer, with enough fuel and a builder that succeeds on each
    message, returns one batch, for that shard, with one transaction per
    message, in chain order, each carrying the header of its message and
    the transaction built from its height and payload. *)
Theorem ingest_then_GetCrossShardTxs
    parent (local cap : Z) (shardID msgHash : Z) msgs fuel
    (account : Account) (consumer : Z) (parentblkNum : Z) :
  linkedFrom shardID msgHash msgs →
  msgs ≠ [] →
  NoDup (msgHash :: (Root <$> msgs)) →
  (length msgs < fuel)%nat →
  IsRootShard consumer = true →
  NewShardID shardID = Some shardID →
  (∀ msg, msg ∈ msgs →
     is_Some (NewCrossShardTxMsg account (MsgHeight (CrossShardMsgInfo_ msg)) consumer
                GasPrice GasLimit (ShardMsg msg))) →
  ∃ batch,
    GetCrossShardTxs fuel
      (AddCrossShardInfos (freshLedger parent) (InitCrossShardPool local cap) msgs).2
      (AddCrossShardInfos (freshLedger parent) (InitCrossShardPool local cap) msgs).1
      account consumer parentblkNum = Returned None (Some {[shardID := batch]})
    ∧ Forall2 (λ shardTx msg,
                 TxShardMsg shardTx = CrossShardMsgInfo_ msg
                 ∧ NewCrossShardTxMsg account (MsgHeight (CrossShardMsgInfo_ msg)) consumer
                     GasPrice GasLimit (ShardMsg msg) = Some (Tx shardTx))
        batch msgs.
Proof. apply GetCrossShardTxs_linked. Qed.

Lemma lookup_foldl_delete_roots (batch : list (CrossShardTxInfos (Transaction := Transaction))) :
  ∀ shardMsgs (key : Z),
    foldl (λ m shardTx, delete (CrossShardMsgRoot (TxShardMsg shardTx)) m) shardMsgs batch !! key =
      if decide (key ∈ (λ shardTx, CrossShardMsgRoot (TxShardMsg shardTx)) <$> batch)
      then None else shardMsgs !! key.
Proof.
  induction batch as [|shardTx rest IH]; intros shardMsgs key.
  - case_decide as Hin; [|done]. by apply elem_of_nil in Hin.
  - change (foldl (λ m tx, delete (CrossShardMsgRoot (TxShardMsg tx)) m) shardMsgs
              (shardTx :: rest))
      with (foldl (λ m tx, delete (CrossShardMsgRoot (TxShardMsg tx)) m)
              (delete (CrossShardMsgRoot (TxShardMsg shardTx)) shardMsgs) rest).
    rewrite IH, fmap_cons.
    destruct (decide (key = CrossShardMsgRoot (TxShardMsg shardTx))) as [->|Hne].
    + rewrite lookup_delete_eq. repeat case_decide; try done.
      all: exfalso; match goal with H : _ ∉ _ :: _ |- _ => apply H end; by left.
    + rewrite lookup_delete_ne by done. repeat case_decide; try done.
      * exfalso. match goal with H : _ ∉ _ :: _ |- _ => apply H end. by right.
      * exfalso. match goal with H : _ ∈ _ :: _ |- _ => apply elem_of_cons in H as [?|?] end; done.
Qed.

Lemma batch_roots (batch : list (CrossShardTxInfos (Transaction := Transaction))) msgs
    (P : CrossShardTxInfos (Transaction := Transaction) → CrossShardMsg (Payload := Payload) → Prop) :
  Forall2 (λ shardTx msg, TxShardMsg shardTx = CrossShardMsgInfo_ msg ∧ P shardTx msg) batch msgs →
  (λ shardTx, CrossShardMsgRoot (TxShardMsg shardTx)) <$> batch = Root <$> msgs.
Proof.
  induction 1 as [|shardTx msg batch msgs [Hhdr _] _ IH]; [done|].
  rewrite !fmap_cons, IH. unfold Root. by rewrite Hhdr.
Qed.

Lemma batch_last (batch : list (CrossShardTxInfos (Transaction := Transaction))) msgs
    (P : CrossShardTxInfos (Transaction := Transaction) → CrossShardMsg (Payload := Payload) → Prop) :
  Forall2 (λ shardTx msg, TxShardMsg shardTx = CrossShardMsgInfo_ msg ∧ P shardTx msg) batch msgs →
  ∀ final, last msgs = Some final →
    ∃ shardTx, last batch = Some shardTx ∧ TxShardMsg shardTx = CrossShardMsgInfo_ final.
Proof.
  intros Hall final Hlast. rewrite last_lookup in Hlast.
  destruct (Forall2_lookup_r _ _ _ _ _ Hall Hlast) as (shardTx & Hlk & Hhdr & _).
  exists shardTx. split; [|done].
  rewrite last_lookup. by rewrite (Forall2_length _ _ _ Hall).
Qed.

Lemma linkedFrom_last_root (shardID : Z) msgs final :
  ∀ (msgHash : Z),
    linkedFrom shardID msgHash msgs →
    last msgs = Some final →
    NoDup (msgHash :: (Root <$> msgs)) →
    final ∈ msgs ∧ Root final ≠ msgHash ∧ Root final ∉ Pre <$> msgs.
Proof.
  induction msgs as [|m rest IH]; intros msgHash Hlinked Hlast Hnodup; [done|].
  destruct Hlinked as (Hfrom & Hpre & Hrest).
  apply NoDup_cons in Hnodup as [Hhead Hroots]. rewrite fmap_cons in Hhead, Hroots.
  destruct rest as [|m' rest'].
  - injection Hlast as <-. split; [by left|]. split.
    + intros Heq. apply Hhead. rewrite <- Heq. by left.
    + rewrite fmap_cons, Hpre. intros Hin. apply list_elem_of_singleton in Hin.
      apply Hhead. rewrite <- Hin. by left.
  - rewrite last_cons_cons in Hlast.
    destruct (IH (Root m) Hrest Hlast Hroots) as (Hin & Hne & Hnotin).
    assert (Hroot : Root final ∈ Root <$> (m' :: rest')) by by apply list_elem_of_fmap_2.
    split; [by right|]. split.
    + intros Heq. apply Hhead. rewrite <- Heq. by right.
    + rewrite fmap_cons, Hpre. apply not_elem_of_cons. split; [|done].
      intros Heq. apply Hhead. rewrite <- Heq. by right.
Qed.

(** The pool and the store after a whole cycle on a linked chain. *)
Lemma cycle_state
    parent (local cap : Z) (shardID msgHash : Z) msgs fuel
    (account : Account) (consumer : Z) (parentblkNum : Z) first final :
  linkedFrom shardID msgHash msgs →
  head msgs = Some first →
  last msgs = Some final →
  NoDup (msgHash :: (Root <$> msgs)) →
  (length msgs < fuel)%nat →
  IsRootShard consumer = true →
  NewShardID shardID = Some shardID →
  (∀ msg, msg ∈ msgs →
     is_Some (NewCrossShardTxMsg account (MsgHeight (CrossShardMsgInfo_ msg)) consumer
                GasPrice GasLimit (ShardMsg msg))) →
  ∃ batch,
    GetCrossShardTxs fuel
      (AddCrossShardInfos (freshLedger parent) (InitCrossShardPool local cap) msgs).2
      (AddCrossShardInfos (freshLedger parent) (InitCrossShardPool local cap) msgs).1
      account consumer parentblkNum = Returned None (Some {[shardID := batch]})
    ∧ Shards
        (DelCrossShardTxs
           (AddCrossShardInfos (freshLedger parent) (InitCrossShardPool local cap) msgs).2
           (AddCrossShardInfos (freshLedger parent) (InitCrossShardPool local cap) msgs).1
           (map_to_list {[shardID := batch]})).2.1 = {[shardID := {[msgHash := first]}]}
    ∧ crossShardHash
        (DelCrossShardTxs
           (AddCrossShardInfos (freshLedger parent) (InitCrossShardPool local cap) msgs).2
           (AddCrossShardInfos (freshLedger parent) (InitCrossShardPool local cap) msgs).1
           (map_to_list {[shardID := batch]})).2.2 !! shardID = Some (Pre final)
    ∧ crossShardMsgs
        (DelCrossShardTxs
           (AddCrossShardInfos (freshLedger parent) (InitCrossShardPool local cap) msgs).2
           (AddCrossShardInfos (freshLedger parent) (InitCrossShardPool local cap) msgs).1
           (map_to_list {[shardID := batch]})).2.2 = entriesOf msgs
    ∧ noFault
        (DelCrossShardTxs
           (AddCrossShardInfos (freshLedger parent) (InitCrossShardPool local cap) msgs).2
           (AddCrossShardInfos (freshLedger parent) (InitCrossShardPool local cap) msgs).1
           (map_to_list {[shardID := batch]})).2.2.
Proof.
  intros Hlinked Hfirst Hfinal Hnodup Hfuel Hroot Hvalid Hbuilt.
  assert (Hne : msgs ≠ []) by (intros ->; discriminate).
  destruct (GetCrossShardTxs_linked parent local cap shardID msgHash msgs fuel account consumer
              parentblkNum Hlinked Hne Hnodup Hfuel Hroot Hvalid Hbuilt) as (batch & Hget & Hall).
  destruct (AddCrossShardInfos_fresh parent local cap shardID msgHash msgs Hlinked Hne Hnodup)
    as (Hshards & _ & Hstore & _ & _ & Hnf & _).
  pose proof (linkedFrom_NoDup_Pre shardID msgs msgHash Hlinked Hnodup) as Hpres.
  set (lgr' := (AddCrossShardInfos _ _ msgs).2) in *.
  set (pool' := (AddCrossShardInfos _ _ msgs).1) in *.
  exists batch. split; [done|].
  rewrite map_to_list_singleton.
  assert (Hmap : Shards pool' !! shardID = Some (entriesOf msgs)).
  { rewrite Hshards. apply lookup_singleton_eq. }
  destruct (delShardTxs_present shardID batch lgr' pool' _ Hmap (Hnf _))
    as (Hflag & Hleft & Hptr).
  destruct (delShardTxs_frame shardID batch lgr' pool')
    as (_ & Hdom & _ & _ & _ & Hmsgs & Hfaulty & _).
  unfold DelCrossShardTxs.
  destruct (delShardTxs lgr' pool' shardID batch) as [flag [pool2 lgr2]]. simpl in *.
  subst flag. simpl.
  assert (Hentries : shardMsgsOf pool2 shardID = {[msgHash := first]}).
  { destruct msgs as [|m rest]; [done|]. injection Hfirst as ->.
    destruct Hlinked as (Hfrom & Hpre & Hrest).
    apply NoDup_cons in Hnodup as [Hhead Hroots].
    rewrite Hleft. apply map_eq. intros key. rewrite lookup_foldl_delete_roots.
    rewrite (batch_roots _ _ _ Hall).
    destruct (decide (key = msgHash)) as [->|Hkey].
    + rewrite lookup_singleton_eq, decide_False by done.
      rewrite <- Hpre. apply entriesOf_lookup_in; [done|by left].
    + rewrite lookup_singleton_ne by done.
      case_decide as Hin; [done|].
      destruct (entriesOf (first :: rest) !! key) as [msg|] eqn:Hlk; [|done].
      apply entriesOf_lookup_Some in Hlk as [Hmem <-].
      apply elem_of_cons in Hmem as [->|Hmem]; [done|].
      destruct (linkedFrom_Pre_in shardID rest _ Hrest msg Hmem) as [_ Hp].
      rewrite fmap_cons in Hin. done. }
  split; [|split; [|split]].
  - apply map_eq. intros id. destruct (decide (id = shardID)) as [->|Hid].
    + rewrite lookup_singleton_eq.
      assert (Hsome : is_Some (Shards pool2 !! shardID)).
      { apply elem_of_dom. rewrite Hdom. apply elem_of_dom. by rewrite Hmap. }
      destruct Hsome as [M HM]. rewrite HM. f_equal.
      unfold shardMsgsOf in Hentries. by rewrite HM in Hentries.
    + rewrite lookup_singleton_ne by done.
      apply not_elem_of_dom. rewrite Hdom, Hshards, dom_singleton_L.
      by apply not_elem_of_singleton.
  - destruct (batch_last _ _ _ Hall final Hfinal) as (shardTx & Hlast & Hhdr).
    rewrite Hlast in Hptr. rewrite Hptr. unfold Pre. by rewrite Hhdr.
  - by rewrite Hmsgs.
  - intros op. by rewrite Hfaulty.
Qed.

(** X12. A whole cycle on a linked chain of one shard: ingested into a
    fresh pool over a fresh store, collected for a root consumer (all
    transactions built) and evicted with the returned mapping. The
    shard's persisted hash is then the [PreCrossShardMsgHash] of the last
    message of the chain, and the shard's map holds the first message of
    the chain and no other. *)
Theorem ingest_collect_evict
    parent (local cap : Z) (shardID msgHash : Z) msgs fuel
    (account : Account) (consumer : Z) (parentblkNum : Z) first final :
  linkedFrom shardID msgHash msgs →
  head msgs = Some first →
  last msgs = Some final →
  NoDup (msgHash :: (Root <$> msgs)) →
  (length msgs < fuel)%nat →
  IsRootShard consumer = true →
  NewShardID shardID = Some shardID →
  (∀ msg, msg ∈ msgs →
     is_Some (NewCrossShardTxMsg account (MsgHeight (CrossShardMsgInfo_ msg)) consumer
                GasPrice GasLimit (ShardMsg msg))) →
  ∃ batch,
    GetCrossShardTxs fuel
      (AddCrossShardInfos (freshLedger parent) (InitCrossShardPool local cap) msgs).2
      (AddCrossShardInfos (freshLedger parent) (InitCrossShardPool local cap) msgs).1
      account consumer parentblkNum = Returned None (Some {[shardID := batch]})
    ∧ shardMsgsOf
        (DelCrossShardTxs
           (AddCrossShardInfos (freshLedger parent) (InitCrossShardPool local cap) msgs).2
           (AddCrossShardInfos (freshLedger parent) (InitCrossShardPool local cap) msgs).1
           (map_to_list {[shardID := batch]})).2.1 shardID = {[msgHash := first]}
    ∧ GetCrossShardHashByShardID
        (DelCrossShardTxs
           (AddCrossShardInfos (freshLedger parent) (InitCrossShardPool local cap) msgs).2
           (AddCrossShardInfos (freshLedger parent) (InitCrossShardPool local cap) msgs).1
           (map_to_list {[shardID := batch]})).2.2 shardID = Found (Pre final).
Proof.
  intros Hlinked Hfirst Hfinal Hnodup Hfuel Hroot Hvalid Hbuilt.
  destruct (cycle_state parent local cap shardID msgHash msgs fuel account consumer
              parentblkNum first final Hlinked Hfirst Hfinal Hnodup Hfuel Hroot Hvalid Hbuilt)
    as (batch & Hget & Hshards & Hptr & _ & Hnf).
  exists batch. split; [done|]. split.
  - unfold shardMsgsOf. by rewrite Hshards, lookup_singleton_eq.
  - unfold GetCrossShardHashByShardID, GetCrossShardHash. by rewrite (Hnf _), Hptr.
Qed.

(** X21. After such a cycle the last message is delivered again: the next
    [GetCrossShardTxs] for the same consumer returns for the shard a batch
    of one transaction, which carries the header of the last message of
    the chain already delivered. *)
Theorem evicted_chain_redelivers_last
    parent (local cap : Z) (shardID msgHash : Z) msgs fuel
    (account : Account) (consumer : Z) (parentblkNum : Z) first final :
  linkedFrom shardID msgHash msgs →
  head msgs = Some first →
  last msgs = Some final →
  NoDup (msgHash :: (Root <$> msgs)) →
  (length msgs < fuel)%nat →
  IsRootShard consumer = true →
  NewShardID shardID = Some shardID →
  (∀ msg, msg ∈ msgs →
     is_Some (NewCrossShardTxMsg account (MsgHeight (CrossShardMsgInfo_ msg)) consumer
                GasPrice GasLimit (ShardMsg msg))) →
  ∃ batch again,
    GetCrossShardTxs fuel
      (AddCrossShardInfos (freshLedger parent) (InitCrossShardPool local cap) msgs).2
      (AddCrossShardInfos (freshLedger parent) (InitCrossShardPool local cap) msgs).1
      account consumer parentblkNum = Returned None (Some {[shardID := batch]})
    ∧ GetCrossShardTxs (S fuel)
        (DelCrossShardTxs
           (AddCrossShardInfos (freshLedger parent) (InitCrossShardPool local cap) msgs).2
           (AddCrossShardInfos (freshLedger parent) (InitCrossShardPool local cap) msgs).1
           (map_to_list {[shardID := batch]})).2.2
        (DelCrossShardTxs
           (AddCrossShardInfos (freshLedger parent) (InitCrossShardPool local cap) msgs).2
           (AddCrossShardInfos (freshLedger parent) (InitCrossShardPool local cap) msgs).1
           (map_to_list {[shardID := batch]})).2.1
        account consumer parentblkNum = Returned None (Some {[shardID := [again]]})
    ∧ TxShardMsg again = CrossShardMsgInfo_ final.
Proof.
  intros Hlinked Hfirst Hfinal Hnodup Hfuel Hroot Hvalid Hbuilt.
  destruct (cycle_state parent local cap shardID msgHash msgs fuel account consumer
              parentblkNum first final Hlinked Hfirst Hfinal Hnodup Hfuel Hroot Hvalid Hbuilt)
    as (batch & Hget & Hshards & Hptr & Hstore & Hnf).
  pose proof (linkedFrom_NoDup_Pre shardID msgs msgHash Hlinked Hnodup) as Hpres.
  destruct (linkedFrom_last_root shardID msgs final msgHash Hlinked Hfinal Hnodup)
    as (Hmem & Hrootne & Hrootnotin).
  set (st := DelCrossShardTxs _ _ (map_to_list {[shardID := batch]})) in *.
  assert (Hstored : ∀ key, GetCrossShardMsgByHash st.2.2 key =
                           match entriesOf msgs !! key with
                           | Some msg => Found msg
                           | None => ErrNotFound
                           end).
  { intros key. unfold GetCrossShardMsgByHash. by rewrite (Hnf _), Hstore. }
  assert (Hend : pendingChain st.2.2 {[msgHash := first]} (Root final) []).
  { apply pendingChain_end; [by rewrite lookup_singleton_ne|].
    by rewrite Hstored, entriesOf_lookup_notin. }
  assert (Hchain : pendingChain st.2.2 {[msgHash := first]} (Pre final) [final]).
  { destruct (decide (Pre final = msgHash)) as [Heq|Hneq].
    - assert (Hsame : first = final).
      { destruct msgs as [|m rest]; [done|]. injection Hfirst as ->.
        destruct Hlinked as (_ & Hpre & _).
        assert (H1 : entriesOf (first :: rest) !! msgHash = Some first).
        { rewrite <- Hpre. apply entriesOf_lookup_in; [done|by left]. }
        assert (H2 : entriesOf (first :: rest) !! msgHash = Some final).
        { rewrite <- Heq. by apply entriesOf_lookup_in. }
        congruence. }
      subst first. apply pendingChain_pool; [|done].
      rewrite Heq. apply lookup_singleton_eq.
    - apply pendingChain_store; [by rewrite lookup_singleton_ne| |done].
      by rewrite Hstored, entriesOf_lookup_in. }
  destruct (Hbuilt final Hmem) as [tx Htx].
  exists batch, {| TxShardMsg := CrossShardMsgInfo_ final; Tx := tx |}.
  split; [done|]. split; [|done].
  change (GetCrossShardTxs (S fuel) st.2.2 st.2.1 account consumer parentblkNum =
          Returned None
            (Some {[shardID := [ {| TxShardMsg := CrossShardMsgInfo_ final; Tx := tx |} ]]})).
  unfold GetCrossShardTxs. rewrite Hroot. simpl negb. cbv iota.
  rewrite Hshards, map_to_list_singleton.
  unfold collectShards. rewrite Hvalid.
  unfold GetCrossShardHashByShardID, GetCrossShardHash. rewrite (Hnf _), Hptr.
  rewrite (collectWalk_pendingChain _ _ _ _ Hchain (S fuel) []) by (simpl; lia).
  simpl. rewrite Htx. by rewrite insert_empty.
Qed.

End LinkedChain.

(** ** What collection returns *)

Section CollectionResults.

Context {Payload Transaction Account : Type}.
Context {ext : External Payload Transaction Account}.

Implicit Types (pool : CrossShardPool (Payload := Payload)).
Implicit Types (lgr : Ledger (Payload := Payload)).
Implicit Types (msg : CrossShardMsg (Payload := Payload)).
Implicit Types (msgs : list (CrossShardMsg (Payload := Payload))).
Implicit Types (shardMsgs : gmap Z (CrossShardMsg (Payload := Payload))).
Implicit Types (shards : list (Z * gmap Z (CrossShardMsg (Payload := Payload)))).
Implicit Types (infos : gmap Z (list (CrossShardTxInfos (Transaction := Transaction)))).

Lemma collectWalk_sound lgr shardMsgs fuel :
  ∀ (msgHash : Z) acc out,
    collectWalk fuel lgr shardMsgs msgHash acc = Returned None out →
    ∃ msgs, out = acc ++ msgs ∧ pendingChain lgr shardMsgs msgHash msgs.
Proof.
  induction fuel as [|fuel IH]; intros msgHash acc out Hrun; [done|].
  simpl in Hrun. destruct (shardMsgs !! msgHash) as [shardMsg|] eqn:Hmem.
  - apply IH in Hrun as (msgs & -> & Hchain).
    exists (shardMsg :: msgs). split; [by rewrite <- app_assoc|].
    by apply pendingChain_pool.
  - destruct (GetCrossShardMsgByHash lgr msgHash) as [msg| |] eqn:Hget; [| |done].
    + apply IH in Hrun as (msgs & -> & Hchain).
      exists (msg :: msgs). split; [by rewrite <- app_assoc|].
      by apply pendingChain_store.
    + injection Hrun as <-. exists []. split; [by rewrite app_nil_r|].
      by apply pendingChain_end.
Qed.

(** The hash the walk for a shard starts from: the persisted one, or the
    zero hash when the shard has none. *)
Lemma collectShards_result lgr fuel (account : Account) (consumer : Z) shards :
  ∀ infos res,
    collectShards fuel lgr account consumer shards infos = Returned None (Some res) →
    NoDup shards.*1 →
    (∀ id, id ∉ shards.*1 → res !! id = infos !! id)
    ∧ (∀ id shardMsgs sid,
         (id, shardMsgs) ∈ shards →
         NewShardID id = Some sid →
         GetCrossShardHashByShardID lgr sid ≠ ErrStore →
         ∃ msgs,
           pendingChain lgr shardMsgs
             (match GetCrossShardHashByShardID lgr sid with
              | Found h => h
              | _ => UINT256_EMPTY
              end) msgs
           ∧ res !! id = Some (buildTxInfos account consumer msgs [])).
Proof.
  induction shards as [|[id0 shardMsgs0] rest IH]; intros infos res Hrun Hnodup.
  - injection Hrun as <-. split; [done|].
    intros id shardMsgs sid Hin. by apply elem_of_nil in Hin.
  - rewrite fmap_cons in Hnodup. apply NoDup_cons in Hnodup as [Hfresh Hnodup].
    simpl in Hfresh. simpl in Hrun.
    destruct (NewShardID id0) as [sid0|] eqn:Hvalid.
    + destruct (GetCrossShardHashByShardID lgr sid0) as [h| |] eqn:Hptr.
      * destruct (collectWalk fuel lgr shardMsgs0 h []) as [[e|] out|] eqn:Hwalk; [done| |done].
        apply collectWalk_sound in Hwalk as (msgs & -> & Hchain). simpl in Hrun.
        destruct (IH _ _ Hrun Hnodup) as [Hout Hin].
        split.
        -- intros id Hnotin. rewrite fmap_cons in Hnotin.
           apply not_elem_of_cons in Hnotin as [Hne Hnotin].
           rewrite (Hout id Hnotin). by rewrite lookup_insert_ne.
        -- intros id shardMsgs sid Hmem Hv Hok.
           apply elem_of_cons in Hmem as [[= -> ->]|Hmem]; [|by apply (Hin id shardMsgs sid)].
           rewrite Hvalid in Hv. injection Hv as <-. rewrite Hptr.
           exists msgs. split; [done|]. rewrite (Hout id0 Hfresh). apply lookup_insert_eq.
      * destruct (collectWalk fuel lgr shardMsgs0 UINT256_EMPTY []) as [[e|] out|] eqn:Hwalk;
          [done| |done].
        apply collectWalk_sound in Hwalk as (msgs & -> & Hchain). simpl in Hrun.
        destruct (IH _ _ Hrun Hnodup) as [Hout Hin].
        split.
        -- intros id Hnotin. rewrite fmap_cons in Hnotin.
           apply not_elem_of_cons in Hnotin as [Hne Hnotin].
           rewrite (Hout id Hnotin). by rewrite lookup_insert_ne.
        -- intros id shardMsgs sid Hmem Hv Hok.
           apply elem_of_cons in Hmem as [[= -> ->]|Hmem]; [|by apply (Hin id shardMsgs sid)].
           rewrite Hvalid in Hv. injection Hv as <-. rewrite Hptr.
           exists msgs. split; [done|]. rewrite (Hout id0 Hfresh). apply lookup_insert_eq.
      * destruct (IH _ _ Hrun Hnodup) as [Hout Hin].
        split.
        -- intros id Hnotin. rewrite fmap_cons in Hnotin.
           apply not_elem_of_cons in Hnotin as [Hne Hnotin]. by apply Hout.
        -- intros id shardMsgs sid Hmem Hv Hok.
           apply elem_of_cons in Hmem as [[= -> ->]|Hmem]; [|by apply (Hin id shardMsgs sid)].
           rewrite Hvalid in Hv. injection Hv as <-. done.
    + destruct (IH _ _ Hrun Hnodup) as [Hout Hin].
      split.
      * intros id Hnotin. rewrite fmap_cons in Hnotin.
        apply not_elem_of_cons in Hnotin as [Hne Hnotin]. by apply Hout.
      * intros id shardMsgs sid Hmem Hv Hok.
        apply elem_of_cons in Hmem as [[= -> ->]|Hmem]; [|by apply (Hin id shardMsgs sid)].
        by rewrite Hvalid in Hv.
Qed.

Lemma GetCrossShardTxs_collects fuel lgr pool (account : Account) (consumer : Z)
    (parentblkNum : Z) res :
  GetCrossShardTxs fuel lgr pool account consumer parentblkNum = Returned None (Some res) →
  ∃ infos,
    collectShards fuel lgr account consumer (map_to_list (Shards pool)) infos =
      Returned None (Some res)
    ∧ (IsRootShard consumer = true → infos = ∅)
    ∧ (IsRootShard consumer = false →
       ∃ parent shardMsg tx,
         ParentLedger lgr = Some parent
         ∧ parent (sub_uint32 parentblkNum 1) consumer = Found shardMsg
         ∧ NewCrossShardTxMsg account parentblkNum consumer GasPrice GasLimit shardMsg = Some tx
         ∧ infos = {[ToUint64 (ParentID consumer) :=
                       [ {| TxShardMsg := {| FromShardID := ParentID consumer;
                                             MsgHeight := parentblkNum;
                                             PreCrossShardMsgHash := UINT256_EMPTY;
                                             CrossShardMsgRoot := UINT256_EMPTY |};
                            Tx := tx |} ]]}).
Proof.
  unfold GetCrossShardTxs. destruct (IsRootShard consumer); simpl.
  - intros Hrun. exists ∅. by repeat split.
  - destruct (ParentLedger lgr) as [parent|]; [|done].
    destruct (parent (sub_uint32 parentblkNum 1) consumer) as [shardMsg| |] eqn:Hrec; [|done..].
    destruct (NewCrossShardTxMsg account parentblkNum consumer GasPrice GasLimit shardMsg)
      as [tx|] eqn:Htx; [|done].
    intros Hrun. eexists. split; [exact Hrun|]. split; [done|].
    intros _. exists parent, shardMsg, tx. by repeat split.
Qed.


(** X14. For a consumer that is not the root, whose parent ledger has a
    record at [parentblkNum - 1] that the builder accepts: whenever
    [GetCrossShardTxs] returns a mapping and the pool has no map for the
    parent's shard id, the mapping holds under that id one transaction,
    the one built from the record, tagged with the parent's shard id and
    [parentblkNum], both hashes of its header zero. *)
Theorem GetCrossShardTxs_parent_entry
    fuel lgr pool (account : Account) (consumer : Z) (parentblkNum : Z) res
    parent shardMsg tx :
  IsRootShard consumer = false →
  ParentLedger lgr = Some parent →
  parent (sub_uint32 parentblkNum 1) consumer = Found shardMsg →
  NewCrossShardTxMsg account parentblkNum consumer GasPrice GasLimit shardMsg = Some tx →
  Shards pool !! ToUint64 (ParentID consumer) = None →
  GetCrossShardTxs fuel lgr pool account consumer parentblkNum = Returned None (Some res) →
  res !! ToUint64 (ParentID consumer) =
    Some [ {| TxShardMsg := {| FromShardID := ParentID consumer;
                               MsgHeight := parentblkNum;
                               PreCrossShardMsgHash := UINT256_EMPTY;
                               CrossShardMsgRoot := UINT256_EMPTY |};
              Tx := tx |} ].
Proof.
  intros Hroot Hparent Hrec Htx Hnone Hrun.
  apply GetCrossShardTxs_collects in Hrun as (infos & Hrun & _ & Hinfos).
  destruct (Hinfos Hroot) as (parent' & shardMsg' & tx' & Hp & Hr & Ht & ->).
  rewrite Hparent in Hp. injection Hp as <-. rewrite Hrec in Hr. injection Hr as <-.
  rewrite Htx in Ht. injection Ht as <-.
  destruct (collectShards_result _ _ _ _ _ _ _ Hrun (NoDup_fst_map_to_list _)) as [Hout _].
  rewrite Hout; [apply lookup_singleton_eq|].
  intros Hin. apply list_elem_of_fmap in Hin as ([id' M] & Heq & Hin). simpl in Heq. subst id'.
  apply elem_of_map_to_list in Hin. congruence.
Qed.

Lemma collectWalk_self_linked lgr shardMsgs (msgHash : Z) msg :
  shardMsgs !! msgHash = Some msg →
  Root msg = msgHash →
  ∀ fuel acc, collectWalk fuel lgr shardMsgs msgHash acc = OutOfFuel.
Proof.
  intros Hmem Hloop fuel. induction fuel as [|fuel IH]; intros acc; [done|].
  simpl. rewrite Hmem, Hloop. apply IH.
Qed.

Lemma collectShards_self_linked lgr fuel (account : Account) (consumer : Z)
    (id sid : Z) shardMsgs (msgHash : Z) msg shards :
  NewShardID id = Some sid →
  GetCrossShardHashByShardID lgr sid = Found msgHash →
  shardMsgs !! msgHash = Some msg →
  Root msg = msgHash →
  (id, shardMsgs) ∈ shards →
  ∀ infos res,
    collectShards fuel lgr account consumer shards infos ≠ Returned None (Some res).
Proof.
  intros Hvalid Hptr Hmem Hloop.
  induction shards as [|[id0 shardMsgs0] rest IH]; intros Hin infos res.
  - by apply elem_of_nil in Hin.
  - apply elem_of_cons in Hin as [[= <- <-]|Hin].
    + simpl. rewrite Hvalid, Hptr.
      by rewrite (collectWalk_self_linked _ _ _ _ Hmem Hloop).
    + simpl. destruct (NewShardID id0) as [sid0|]; [|by apply IH].
      destruct (GetCrossShardHashByShardID lgr sid0) as [h| |].
      * destruct (collectWalk fuel lgr shardMsgs0 h []) as [[e|] out|]; [done| |done].
        by apply IH.
      * destruct (collectWalk fuel lgr shardMsgs0 UINT256_EMPTY []) as [[e|] out|];
          [done| |done].
        by apply IH.
      * by apply IH.
Qed.

(** X15. A message whose [CrossShardMsgRoot] is its own key, sitting in
    the map of a shard at the shard's persisted hash, keeps
    [GetCrossShardTxs] from ever returning a mapping, for any consumer
    and any amount of fuel: the walk of that shard appends the message
    and comes back to the same hash. *)
Theorem GetCrossShardTxs_self_linked_never_delivers
    lgr pool (account : Account) (consumer : Z) (parentblkNum : Z)
    (id sid : Z) shardMsgs (msgHash : Z) msg :
  Shards pool !! id = Some shardMsgs →
  NewShardID id = Some sid →
  GetCrossShardHashByShardID lgr sid = Found msgHash →
  shardMsgs !! msgHash = Some msg →
  Root msg = msgHash →
  ∀ fuel res,
    GetCrossShardTxs fuel lgr pool account consumer parentblkNum ≠ Returned None (Some res).
Proof.
  intros Hmap Hvalid Hptr Hmem Hloop fuel res Hrun.
  apply GetCrossShardTxs_collects in Hrun as (infos & Hrun & _).
  revert Hrun. apply (collectShards_self_linked lgr fuel account consumer id sid shardMsgs
                        msgHash msg); try done.
  by apply elem_of_map_to_list.
Qed.

End CollectionResults.

(** ** What the decoders' results tell *)

Section DecodingResults.

Context {codec : Codec}.

Implicit Types (tx payload evtPayload : bytes) (txs : list bytes).
Implicit Types (reqs : list CommonShardReq).

(** X16. [DecodeShardEvent] never returns an event together with an
    error. An event comes back only under the deposit tag or, failing
    that, the withdraw-request tag, and is then the value the matching
    [Deserialize] produced from the payload; no event and no error comes
    back only under the withdraw-done tag. *)
Theorem DecodeShardEvent_result evtType evtPayload evt err :
  DecodeShardEvent evtType evtPayload = (evt, err) →
  (evt = None ∨ err = None)
  ∧ (∀ e, evt = Some e →
       (evtType = EVENT_SHARD_GAS_DEPOSIT
        ∧ ∃ d, DeserializeDepositGasEvent evtPayload = inr d ∧ e = EvDepositGas d)
       ∨ (evtType ≠ EVENT_SHARD_GAS_DEPOSIT
          ∧ evtType = EVENT_SHARD_GAS_WITHDRAW_REQ
          ∧ ∃ w, DeserializeWithdrawGasReqEvent evtPayload = inr w ∧ e = EvWithdrawGasReq w))
  ∧ (evt = None → err = None →
       evtType = EVENT_SHARD_GAS_WITHDRAW_DONE
       ∧ evtType ≠ EVENT_SHARD_GAS_DEPOSIT
       ∧ evtType ≠ EVENT_SHARD_GAS_WITHDRAW_REQ).
Proof.
  unfold DecodeShardEvent.
  destruct (Z.eqb_spec evtType EVENT_SHARD_GAS_DEPOSIT) as [Hd|Hd].
  - destruct (DeserializeDepositGasEvent evtPayload) as [msg|d] eqn:Hdes;
      intros [= <- <-]; (split; [auto|]); split; try done.
    intros e [= <-]. left. split; [done|]. by exists d.
  - destruct (Z.eqb_spec evtType EVENT_SHARD_GAS_WITHDRAW_REQ) as [Hw|Hw].
    + destruct (DeserializeWithdrawGasReqEvent evtPayload) as [msg|w] eqn:Hdes;
        intros [= <- <-]; (split; [auto|]); split; try done.
      intros e [= <-]. right. split; [done|]. split; [done|]. by exists w.
    + destruct (Z.eqb_spec evtType EVENT_SHARD_GAS_WITHDRAW_DONE) as [Hdone|Hdone];
        intros [= <- <-]; (split; [auto|]); split; try done.
Qed.

Lemma decodeReqs_inr txs :
  ∀ acc out,
    decodeReqs txs acc = inr out →
    ∃ reqs, out = acc ++ reqs
            ∧ Forall2 (λ tx req, DeserializeCommonShardReq tx = inr req) txs reqs.
Proof.
  induction txs as [|tx rest IH]; intros acc out Hrun.
  - injection Hrun as <-. exists []. by rewrite app_nil_r.
  - simpl in Hrun. destruct (DeserializeCommonShardReq tx) as [e|req] eqn:Hreq; [done|].
    apply IH in Hrun as (reqs & -> & Hall).
    exists (req :: reqs). split; [by rewrite <- app_assoc|]. by apply Forall2_cons.
Qed.

Lemma decodeReqs_inl txs :
  ∀ acc e,
    decodeReqs txs acc = inl e →
    ∃ parsed tx rest err,
      txs = parsed ++ tx :: rest
      ∧ Forall (λ tx', ∃ req, DeserializeCommonShardReq tx' = inr req) parsed
      ∧ DeserializeCommonShardReq tx = inl err
      ∧ e = ErrUnmarshalReqTx err tx.
Proof.
  induction txs as [|tx0 rest IH]; intros acc e Hrun; [done|].
  simpl in Hrun. destruct (DeserializeCommonShardReq tx0) as [err0|req] eqn:Hreq.
  - injection Hrun as <-. exists [], tx0, rest, err0. by repeat split.
  - apply IH in Hrun as (parsed & tx & rest' & err & -> & Hparsed & Hbad & ->).
    exists (tx0 :: parsed), tx, rest', err. repeat split; try done.
    apply Forall_cons. split; [by exists req|done].
Qed.

(** X17. What [DecodeShardCommonReqs] returns tells what the payload
    held. A list of requests: the container unwrapped, and the requests
    are the decodings of its elements, one for one and in order. An
    error about an element: the container unwrapped, every element before
    that one parsed, and that one failed with the error carried. An error
    about the container: the container did not unwrap. There is no other
    outcome. *)
Theorem DecodeShardCommonReqs_result payload :
  (∀ reqs, DecodeShardCommonReqs payload = inr reqs →
     ∃ txs, UnmarshalCrossShardTx payload = inr txs
            ∧ Forall2 (λ tx req, DeserializeCommonShardReq tx = inr req) txs reqs)
  ∧ (∀ e, DecodeShardCommonReqs payload = inl e →
       (∃ err, UnmarshalCrossShardTx payload = inl err ∧ e = ErrUnmarshalTxs err)
       ∨ (∃ parsed tx rest err,
            UnmarshalCrossShardTx payload = inr (parsed ++ tx :: rest)
            ∧ Forall (λ tx', ∃ req, DeserializeCommonShardReq tx' = inr req) parsed
            ∧ DeserializeCommonShardReq tx = inl err
            ∧ e = ErrUnmarshalReqTx err tx)).
Proof.
  unfold DecodeShardCommonReqs.
  destruct (UnmarshalCrossShardTx payload) as [err|txs]; split.
  - done.
  - intros e [= <-]. left. by exists err.
  - intros reqs Hrun. apply decodeReqs_inr in Hrun as (reqs' & -> & Hall).
    exists txs. by split.
  - intros e Hrun. right.
    apply decodeReqs_inl in Hrun as (parsed & tx & rest & err' & -> & Hparsed & Hbad & ->).
    exists parsed, tx, rest, err'. by repeat split.
Qed.

End DecodingResults.

(** ** Where recovery stops, and what collection returns with an error *)

Section StopsAndErrors.

Context {Payload Transaction Account : Type}.
Context {ext : External Payload Transaction Account}.

Implicit Types (pool : CrossShardPool (Payload := Payload)).
Implicit Types (lgr : Ledger (Payload := Payload)).
Implicit Types (msg : CrossShardMsg (Payload := Payload)).
Implicit Types (shards : list (Z * gmap Z (CrossShardMsg (Payload := Payload)))).
Implicit Types (infos : gmap Z (list (CrossShardTxInfos (Transaction := Transaction)))).

(** X18. [InitShardInfo] does not return when the first listed shard has
    a persisted hash, the store has a message at that hash, and the
    shard's map already holds the key of that message: whatever the fuel,
    the walk is still at the same hash with the same pool. *)
Theorem InitShardInfo_never_returns_on_present_key
    lgr pool (shardId : Z) rest (msgHash : Z) msg :
  GetAllShardIDs lgr = Found (shardId :: rest) →
  GetCrossShardHashByShardID lgr shardId = Found msgHash →
  GetCrossShardMsgByHash lgr msgHash = Found msg →
  is_Some (shardMsgsOf pool shardId !! Pre msg) →
  ∀ fuel, InitShardInfo fuel lgr pool = OutOfFuel.
Proof.
  intros Hids Hptr Hget Hin fuel. unfold InitShardInfo. rewrite Hids.
  simpl. rewrite Hptr.
  by rewrite (recoverWalk_present_diverges _ _ _ _ msg Hget).
Qed.

Lemma initShards_stops lgr fuel (shardId : Z) rest visited :
  GetCrossShardHashByShardID lgr shardId = ErrNotFound →
  ∀ pool,
    initShards fuel lgr (visited ++ shardId :: rest) pool =
      initShards fuel lgr (visited ++ [shardId]) pool.
Proof.
  intros Hptr. induction visited as [|id visited IH]; intros pool.
  - simpl. by rewrite Hptr.
  - simpl. destruct (GetCrossShardHashByShardID lgr id) as [h| |]; [|done..].
    destruct (recoverWalk fuel lgr id h _) as [[e|] pool2|]; [done| |done].
    apply IH.
Qed.

Lemma initShards_untouched lgr fuel shardIds :
  ∀ pool err pool',
    initShards fuel lgr shardIds pool = Returned err pool' →
    ∀ id, id ∉ shardIds →
      ShardInfo pool' !! id = ShardInfo pool !! id ∧ Shards pool' !! id = Shards pool !! id.
Proof.
  induction shardIds as [|shardId rest IH]; intros pool err pool' Hrun id Hnotin.
  - by injection Hrun as <- <-.
  - apply not_elem_of_cons in Hnotin as [Hne Hnotin]. simpl in Hrun.
    set (pool1 := set_ShardInfo pool (<[shardId := true]> (ShardInfo pool))) in Hrun.
    assert (Hone : ShardInfo pool1 !! id = ShardInfo pool !! id
                   ∧ Shards pool1 !! id = Shards pool !! id).
    { unfold pool1. simpl. by rewrite lookup_insert_ne. }
    destruct (GetCrossShardHashByShardID lgr shardId) as [msgHash| |].
    + destruct (recoverWalk fuel lgr shardId msgHash pool1) as [werr pool2|] eqn:Hwalk; [|done].
      pose proof (recoverWalk_Shards_other _ _ _ _ _ _ _ Hwalk id Hne) as Hshards.
      apply recoverWalk_grows in Hwalk as (Hinfo & _ & _).
      destruct Hone as [H1 H2].
      destruct werr as [e|].
      * injection Hrun as <- <-. by rewrite Hinfo, Hshards.
      * destruct (IH _ _ _ Hrun id Hnotin) as [-> ->]. by rewrite Hinfo, Hshards.
    + by injection Hrun as <- <-.
    + by injection Hrun as <- <-.
Qed.

(** X19. [InitShardInfo] stops at the first listed shard that has no
    persisted hash: what it returns is what the loop over the shard ids
    up to and including that one returns, and a shard id listed only
    after it is left as it was, neither marked nor recovered. *)
Theorem InitShardInfo_stops_at_missing_hash
    lgr fuel pool (shardId : Z) visited rest :
  GetAllShardIDs lgr = Found (visited ++ shardId :: rest) →
  GetCrossShardHashByShardID lgr shardId = ErrNotFound →
  InitShardInfo fuel lgr pool = initShards fuel lgr (visited ++ [shardId]) pool
  ∧ ∀ err pool',
      InitShardInfo fuel lgr pool = Returned err pool' →
      ∀ id, id ∉ visited → id ≠ shardId →
        GetShardInfo pool' !! id = GetShardInfo pool !! id
        ∧ Shards pool' !! id = Shards pool !! id.
Proof.
  intros Hids Hptr.
  assert (Hrun : InitShardInfo fuel lgr pool = initShards fuel lgr (visited ++ [shardId]) pool).
  { unfold InitShardInfo. rewrite Hids. by apply initShards_stops. }
  split; [done|]. rewrite Hrun. intros err pool' Hret id Hnotin Hne.
  apply (initShards_untouched _ _ _ _ _ _ Hret).
  intros Hin. apply elem_of_app in Hin as [Hin|Hin]; [done|].
  apply list_elem_of_singleton in Hin. done.
Qed.

Lemma collectShards_error lgr fuel (account : Account) (consumer : Z) shards :
  ∀ infos err res,
    collectShards fuel lgr account consumer shards infos = Returned (Some err) res →
    res = None ∧ ∃ msgHash, err = ErrGetCrossShardMsg msgHash.
Proof.
  assert (Hwalk : ∀ fuel' shardMsgs (h : Z) acc e out,
             collectWalk fuel' lgr shardMsgs h acc = Returned (Some e) out →
             ∃ msgHash, e = ErrGetCrossShardMsg msgHash).
  { induction fuel' as [|fuel' IH]; intros shardMsgs h acc e out Hrun; [done|].
    simpl in Hrun. destruct (shardMsgs !! h); [by apply IH in Hrun|].
    destruct (GetCrossShardMsgByHash lgr h); [by apply IH in Hrun|done|].
    injection Hrun as <- _. by eexists. }
  induction shards as [|[id0 shardMsgs0] rest IH]; intros infos err res Hrun; [done|].
  simpl in Hrun. destruct (NewShardID id0) as [sid0|]; [|by apply IH in Hrun].
  destruct (GetCrossShardHashByShardID lgr sid0) as [h| |].
  - destruct (collectWalk fuel lgr shardMsgs0 h []) as [[e|] out|] eqn:Hw; [| |done].
    + injection Hrun as <- <-. split; [done|]. by apply Hwalk in Hw.
    + by apply IH in Hrun.
  - destruct (collectWalk fuel lgr shardMsgs0 UINT256_EMPTY []) as [[e|] out|] eqn:Hw; [| |done].
    + injection Hrun as <- <-. split; [done|]. by apply Hwalk in Hw.
    + by apply IH in Hrun.
  - by apply IH in Hrun.
Qed.

(** X20. An error from [GetCrossShardTxs] comes with the [nil] mapping,
    never with batches, and is one of three: the parent ledger's read
    failed, the builder refused the parent's record, or the store failed
    on a message during a shard's walk. A failed read of a shard's
    persisted hash, an invalid shard id or a builder failure on a pool
    message is never returned as an error. *)
Theorem GetCrossShardTxs_error_paths
    fuel lgr pool (account : Account) (consumer : Z) (parentblkNum : Z) err res :
  GetCrossShardTxs fuel lgr pool account consumer parentblkNum = Returned (Some err) res →
  res = None
  ∧ (err = ErrGetShardMsgsInBlock parentblkNum consumer
     ∨ err = ErrNewCrossShardTxMsg parentblkNum
     ∨ ∃ msgHash, err = ErrGetCrossShardMsg msgHash).
Proof.
  unfold GetCrossShardTxs. destruct (IsRootShard consumer); simpl.
  - intros Hrun. apply collectShards_error in Hrun as [-> Herr]. auto.
  - destruct (ParentLedger lgr) as [parent|]; [|done].
    destruct (parent (sub_uint32 parentblkNum 1) consumer) as [shardMsg| |]; [|done|].
    + destruct (NewCrossShardTxMsg account parentblkNum consumer GasPrice GasLimit shardMsg).
      * intros Hrun. apply collectShards_error in Hrun as [-> Herr]. auto.
      * intros [= <- <-]. auto.
    + intros [= <- <-]. auto.
Qed.

End StopsAndErrors.

(** ** The hypotheses of the properties above, met on concrete states *)

(** X1, for a pool that holds a message of another shard. *)
Lemma InitShardInfo_only_adds_witness :
  InitShardInfo 3 Scenario.ingested2.2 Cases.poolB = Returned None Cases.poolB_recovered
  ∧ shardMsgsOf Cases.poolB_recovered Scenario.shardB !! 201 = Some Cases.msgB.
Proof.
  split; [reflexivity|].
  destruct (InitShardInfo_only_adds 3 Scenario.ingested2.2 Cases.poolB None Cases.poolB_recovered)
    as [_ Hentries]; [reflexivity|].
  apply Hentries. reflexivity.
Defined.

(** X2, on the ledger left by ingesting two messages of one shard. *)
Lemma InitShardInfo_marks_listed_shards_witness :
  GetAllShardIDs Scenario.ingested2.2 = Found [Scenario.shardA]
  ∧ GetShardInfo Scenario.recoveredPool !! Scenario.shardA = Some true.
Proof.
  split; [reflexivity|].
  apply (InitShardInfo_marks_listed_shards 3 Scenario.ingested2.2 Scenario.pool0
           Scenario.recoveredPool [Scenario.shardA]).
  - reflexivity.
  - reflexivity.
  - intros id Hin. apply list_elem_of_singleton in Hin. subst id. discriminate.
  - apply list_elem_of_singleton. reflexivity.
Defined.

(** X4, for the batch of the two messages of [Scenario.shardA]. *)
Lemma DelCrossShardTxs_effect_witness :
  crossShardHash
    (DelCrossShardTxs Scenario.ingested2.2 Scenario.ingested2.1
       [(Scenario.shardA, Scenario.batch 0)]).2.2 !! Scenario.shardA = Some Scenario.H2.
Proof.
  destruct (DelCrossShardTxs_effect [(Scenario.shardA, Scenario.batch 0)]
              Scenario.ingested2.2 Scenario.ingested2.1) with
    (id := Scenario.shardA) (shardTxs := Scenario.batch 0) as [_ Hhash].
  - apply NoDup_singleton.
  - intros id shardTxs Hin. apply list_elem_of_singleton in Hin. injection Hin as -> ->.
    split; [by eexists|reflexivity].
  - apply list_elem_of_singleton. reflexivity.
  - exact Hhash.
Defined.

(** X6, for the first message ingested into a fresh pool. *)
Lemma AddCrossShardInfo_stores_message_witness :
  GetCrossShardMsgByHash
    (AddCrossShardInfo Scenario.emptyLedger Scenario.pool0 Scenario.msg1).2.2 Scenario.H1 =
    Found Scenario.msg1.
Proof.
  destruct (AddCrossShardInfo_stores_message Scenario.emptyLedger Scenario.pool0 Scenario.msg1)
    as (_ & _ & Hstored & _).
  - intros op. reflexivity.
  - reflexivity.
  - exact Hstored.
Defined.

(** X7, on a store that refuses to persist messages. *)
Lemma AddCrossShardInfo_error_paths_witness :
  GetShardInfo (AddCrossShardInfo Scenario.readOnlyLedger Scenario.pool0 Scenario.msg1).2.1 =
    GetShardInfo Scenario.pool0.
Proof.
  destruct (AddCrossShardInfo_error_paths Scenario.readOnlyLedger Scenario.pool0 Scenario.msg1
              (ErrSaveCrossShardMsg Scenario.shardA Scenario.H1)
              (AddCrossShardInfo Scenario.readOnlyLedger Scenario.pool0 Scenario.msg1).2.1
              (AddCrossShardInfo Scenario.readOnlyLedger Scenario.pool0 Scenario.msg1).2.2)
    as (_ & _ & Hinfo & _).
  - reflexivity.
  - exact Hinfo.
Defined.

(** X8, for a second message ingested after the first set the hash. *)
Lemma AddCrossShardInfo_keeps_persisted_hash_witness :
  crossShardHash Scenario.ingested1.2 !! Scenario.shardA = Some Scenario.H1
  ∧ crossShardHash
      (AddCrossShardInfos Scenario.ingested1.2 Scenario.ingested1.1 [Scenario.msg2]).2
      !! Scenario.shardA = Some Scenario.H1.
Proof.
  split; [reflexivity|].
  apply AddCrossShardInfo_keeps_persisted_hash. reflexivity.
Defined.

(** X10, for the chain [Scenario.msg1], [Scenario.msg2]. *)
Lemma ingest_then_InitShardInfo_witness :
  linkedFrom Scenario.shardA Scenario.H1 [Scenario.msg1; Scenario.msg2]
  ∧ ∃ pool',
      InitShardInfo 3
        (AddCrossShardInfos (freshLedger None) (InitCrossShardPool 0 100)
           [Scenario.msg1; Scenario.msg2]).2
        (InitCrossShardPool 1 50) = Returned None pool'
      ∧ Shards pool' =
          Shards (AddCrossShardInfos (freshLedger None) (InitCrossShardPool 0 100)
                    [Scenario.msg1; Scenario.msg2]).1.
Proof.
  assert (Hlinked : linkedFrom Scenario.shardA Scenario.H1 [Scenario.msg1; Scenario.msg2]).
  { repeat split. }
  split; [exact Hlinked|].
  destruct (ingest_then_InitShardInfo None 0 100 1 50 Scenario.shardA Scenario.H1
              [Scenario.msg1; Scenario.msg2] 3) as (pool' & Hrun & Hshards & _).
  - exact Hlinked.
  - discriminate.
  - compute_done.
  - simpl. lia.
  - exists pool'. split; [exact Hrun|exact Hshards].
Defined.

(** X11, for the chain [Scenario.msg1], [Scenario.msg2] and the root
    consumer. *)
Lemma ingest_then_GetCrossShardTxs_witness :
  ∃ batch,
    GetCrossShardTxs (ext := Scenario.ext) 3
      (AddCrossShardInfos (freshLedger None) (InitCrossShardPool 0 100)
         [Scenario.msg1; Scenario.msg2]).2
      (AddCrossShardInfos (freshLedger None) (InitCrossShardPool 0 100)
         [Scenario.msg1; Scenario.msg2]).1
      () 0 7 = Returned None (Some {[Scenario.shardA := batch]})
    ∧ length batch = 2%nat.
Proof.
  destruct (ingest_then_GetCrossShardTxs (ext := Scenario.ext) None 0 100 Scenario.shardA
              Scenario.H1 [Scenario.msg1; Scenario.msg2] 3 () 0 7)
    as (batch & Hrun & Hall).
  - repeat split.
  - discriminate.
  - compute_done.
  - simpl. lia.
  - reflexivity.
  - reflexivity.
  - intros msg _. by eexists.
  - exists batch. split; [exact Hrun|]. by rewrite (Forall2_length _ _ _ Hall).
Defined.

(** X12, for the chain [Scenario.msg1], [Scenario.msg2] and the root
    consumer. *)
Lemma ingest_collect_evict_witness :
  ∃ batch,
    GetCrossShardTxs (ext := Scenario.ext) 3
      (AddCrossShardInfos (freshLedger None) (InitCrossShardPool 0 100)
         [Scenario.msg1; Scenario.msg2]).2
      (AddCrossShardInfos (freshLedger None) (InitCrossShardPool 0 100)
         [Scenario.msg1; Scenario.msg2]).1
      () 0 7 = Returned None (Some {[Scenario.shardA := batch]})
    ∧ shardMsgsOf
        (DelCrossShardTxs
           (AddCrossShardInfos (freshLedger None) (InitCrossShardPool 0 100)
              [Scenario.msg1; Scenario.msg2]).2
           (AddCrossShardInfos (freshLedger None) (InitCrossShardPool 0 100)
              [Scenario.msg1; Scenario.msg2]).1
           (map_to_list {[Scenario.shardA := batch]})).2.1 Scenario.shardA =
        {[Scenario.H1 := Scenario.msg1]}.
Proof.
  destruct (ingest_collect_evict (ext := Scenario.ext) None 0 100 Scenario.shardA
              Scenario.H1 [Scenario.msg1; Scenario.msg2] 3 () 0 7 Scenario.msg1 Scenario.msg2)
    as (batch & Hrun & Hleft & _).
  - repeat split.
  - reflexivity.
  - reflexivity.
  - compute_done.
  - simpl. lia.
  - reflexivity.
  - reflexivity.
  - intros msg _. by eexists.
  - exists batch. split; [exact Hrun|exact Hleft].
Defined.


(** X14, for the consumer [Scenario.shardB] on a store whose parent has a
    record. *)
Lemma GetCrossShardTxs_parent_entry_witness :
  ({[0 := [Cases.parentTx]]} : gmap Z _) !! ToUint64 (ParentID (External := Scenario.ext)
                                                         Scenario.shardB) =
    Some [Cases.parentTx].
Proof.
  apply (GetCrossShardTxs_parent_entry (ext := Scenario.ext) 3 Cases.withParent Scenario.pool0
           () Scenario.shardB 7 {[0 := [Cases.parentTx]]}
           (λ height _, if height =? 6 then Found [9] else ErrNotFound) [9]
           (7, Scenario.shardB, [9])); reflexivity.
Defined.

(** X15, for the pool and ledger left by ingesting a self-linked
    message. *)
Lemma GetCrossShardTxs_self_linked_never_delivers_witness :
  Root Scenario.msgLoop = Scenario.H1
  ∧ GetCrossShardTxs (ext := Scenario.ext) 9 Cases.looped.2 Cases.looped.1 () 0 7 ≠
      Returned None (Some ∅).
Proof.
  split; [reflexivity|].
  apply (GetCrossShardTxs_self_linked_never_delivers (ext := Scenario.ext)
           Cases.looped.2 Cases.looped.1 () 0 7 Scenario.shardA Scenario.shardA
           {[Scenario.H1 := Scenario.msgLoop]} Scenario.H1 Scenario.msgLoop); reflexivity.
Defined.

(** X16, for a deposit event. *)
Lemma DecodeShardEvent_result_witness :
  DecodeShardEvent (codec := Scenario.codec) 256 [Byte.x01] =
    (Some (EvDepositGas (codec := Scenario.codec) [Byte.x01]), None)
  ∧ (Some (EvDepositGas (codec := Scenario.codec) [Byte.x01]) = None
     ∨ (None : option DecodeError) = None).
Proof.
  split; [reflexivity|].
  destruct (DecodeShardEvent_result (codec := Scenario.codec) 256 [Byte.x01]
              (Some (EvDepositGas (codec := Scenario.codec) [Byte.x01])) None)
    as [Hnever _]; [reflexivity|].
  exact Hnever.
Defined.

(** X18, for the pool and ledger left by ingesting one message. *)
Lemma InitShardInfo_never_returns_on_present_key_witness :
  GetAllShardIDs Scenario.ingested1.2 = Found [Scenario.shardA]
  ∧ InitShardInfo 7 Scenario.ingested1.2 Scenario.ingested1.1 = OutOfFuel.
Proof.
  split; [reflexivity|].
  apply (InitShardInfo_never_returns_on_present_key Scenario.ingested1.2 Scenario.ingested1.1
           Scenario.shardA [] Scenario.H1 Scenario.msg1); try reflexivity.
  by eexists.
Defined.

(** X19, for a ledger whose first listed shard has no persisted hash. *)
Lemma InitShardInfo_stops_at_missing_hash_witness :
  GetCrossShardHashByShardID Scenario.twoShardLedger Scenario.shardB = ErrNotFound
  ∧ InitShardInfo 2 Scenario.twoShardLedger Scenario.pool0 =
      initShards 2 Scenario.twoShardLedger ([] ++ [Scenario.shardB]) Scenario.pool0.
Proof.
  split; [reflexivity|].
  destruct (InitShardInfo_stops_at_missing_hash Scenario.twoShardLedger 2 Scenario.pool0
              Scenario.shardB [] [Scenario.shardA]) as [Hrun _]; [reflexivity|reflexivity|].
  exact Hrun.
Defined.

(** X20, on a store whose reads of messages fail. *)
Lemma GetCrossShardTxs_error_paths_witness :
  GetCrossShardTxs (ext := Scenario.ext) 4 Cases.unreadable Scenario.ingested2.1 () 0 7 =
    Returned (Some (ErrGetCrossShardMsg 103)) None
  ∧ (None : option (gmap Z (list (CrossShardTxInfos (Transaction := Scenario.transaction))))) = None.
Proof.
  split; [reflexivity|].
  destruct (GetCrossShardTxs_error_paths (ext := Scenario.ext) 4 Cases.unreadable
              Scenario.ingested2.1 () 0 7 (ErrGetCrossShardMsg 103) None) as [Hnil _];
    [reflexivity|].
  exact Hnil.
Defined.

(** X21, for the chain [Scenario.msg1], [Scenario.msg2] and the root
    consumer. *)
Lemma evicted_chain_redelivers_last_witness :
  ∃ (batch : list (CrossShardTxInfos (Transaction := Scenario.transaction))) again,
    GetCrossShardTxs (ext := Scenario.ext) 4
      (DelCrossShardTxs
         (AddCrossShardInfos (freshLedger None) (InitCrossShardPool 0 100)
            [Scenario.msg1; Scenario.msg2]).2
         (AddCrossShardInfos (freshLedger None) (InitCrossShardPool 0 100)
            [Scenario.msg1; Scenario.msg2]).1
         (map_to_list {[Scenario.shardA := batch]})).2.2
      (DelCrossShardTxs
         (AddCrossShardInfos (freshLedger None) (InitCrossShardPool 0 100)
            [Scenario.msg1; Scenario.msg2]).2
         (AddCrossShardInfos (freshLedger None) (InitCrossShardPool 0 100)
            [Scenario.msg1; Scenario.msg2]).1
         (map_to_list {[Scenario.shardA := batch]})).2.1
      () 0 7 = Returned None (Some {[Scenario.shardA := [again]]})
    ∧ TxShardMsg again = CrossShardMsgInfo_ Scenario.msg2.
Proof.
  destruct (evicted_chain_redelivers_last (ext := Scenario.ext) None 0 100 Scenario.shardA
              Scenario.H1 [Scenario.msg1; Scenario.msg2] 3 () 0 7 Scenario.msg1 Scenario.msg2)
    as (batch & again & _ & Hrun & Hhdr).
  - repeat split.
  - reflexivity.
  - reflexivity.
  - compute_done.
  - simpl. lia.
  - reflexivity.
  - reflexivity.
  - intros msg _. by eexists.
  - exists batch, again. split; [exact Hrun|exact Hhdr].
Defined.
